(** * parser-mini: a shallow embedding of [parser.js] and its properties

    The library builds text parsers out of a handful of primitive
    matchers and combinators.  A parser wraps one function from a parse
    state [{ parsed, rest }] to either a new state or [undefined].

    The embedding follows the JSDoc types of the source:
    - [rest] is a string; parsed values are dynamically typed (module
      [JS]).  Where a value of another kind reaches a place that needs
      a string or a plain object, the run is reported as [Illtyped]
      instead of following JavaScript's coercions.
    - The two [while] loops of the source ([many] and [Parser.repeat])
      need not terminate, so every parse function takes a fuel argument
      that bounds the number of loop iterations; running out of fuel is
      reported as [Timeout].
    - The iteration bounds of [many] are natural numbers.
    - [Object.assign] writes into its first argument.  Module
      [Parser] works with the contents of values and returns the
      merged mapping as a value; it is used where the identity of
      result objects plays no part.  Module [Store] keeps the objects
      in an explicit store, and its [bind] updates the object on the
      left of the merge in place; the properties of the merge itself
      are stated there. *)

From Stdlib Require Import String Ascii ZArith Lia DecimalString.
From stdpp Require Import base gmap strings list.

Set Warnings "-register-all".

(** ** JavaScript strings and values *)

Module JS.

(** A string is a sequence of code units; one [ascii] stands for one
    code unit.  [unit_string c] is the one-character string [text[i]]
    evaluates to. *)
Definition unit_string (c : ascii) : string := String c EmptyString.

(** [s.slice(n)] for a natural number [n]. *)
Fixpoint slice_from (n : nat) (s : string) : string :=
  match n, s with
  | O, _ => s
  | S _, EmptyString => EmptyString
  | S n', String _ s' => slice_from n' s'
  end.

(** [s.slice(start, stop)] for natural numbers: the code units at the
    positions [start <= i < stop], clamped to the string. *)
Definition slice (start stop : nat) (s : string) : string :=
  String.substring start (stop - start) s.

(** [s.startsWith(t)]. *)
Definition startsWith (s t : string) : bool := String.prefix t s.

(** Truthiness of a string: only the empty string is falsy. *)
Definition truthy (s : string) : bool :=
  match s with
  | EmptyString => false
  | String _ _ => true
  end.

(** The values the parsers produce: [undefined] (also used for an
    absent [parsed] field), booleans, integers, strings, arrays and
    plain objects used as string-keyed maps. *)
Inductive value : Type :=
  | VUndef
  | VBool (b : bool)
  | VNum (n : Z)
  | VStr (s : string)
  | VArr (l : list value)
  | VObj (m : gmap string value).

(** [String(v)], as [Array.prototype.join] applies it to the
    elements of an array, and [l.join(sep)] itself.  [undefined]
    elements contribute the empty string.  Numbers are the integers
    JavaScript represents exactly and prints in decimal (magnitude
    below 2^53). *)
Fixpoint to_text (v : value) : string :=
  match v with
  | VUndef => "undefined"
  | VBool true => "true"
  | VBool false => "false"
  | VNum n => NilZero.string_of_int (Z.to_int n)
  | VStr s => s
  | VArr l =>
      (fix join_comma (l : list value) : string :=
         match l with
         | [] => ""
         | [v] => match v with VUndef => "" | _ => to_text v end
         | v :: l' =>
             (match v with VUndef => "" | _ => to_text v end)
               +:+ "," +:+ join_comma l'
         end) l
  | VObj _ => "[object Object]"
  end.

Definition element_text (v : value) : string :=
  match v with
  | VUndef => ""
  | _ => to_text v
  end.

(** [l.join('')]. *)
Fixpoint join (l : list value) : string :=
  match l with
  | [] => ""
  | v :: l' => element_text v +:+ join l'
  end.

(** [chars.join('')] for an array of strings. *)
Fixpoint join_strings (l : list string) : string :=
  match l with
  | [] => ""
  | s :: l' => s +:+ join_strings l'
  end.

(** [Object.assign(target, source)] on two plain objects: every key of
    [source] is written into [target], so [source] wins on a shared
    key ([∪] on [gmap] prefers its left operand).  The coercions
    JavaScript applies to operands that are not plain objects are
    outside the model: [None]. *)
Definition object_assign (target source : value) : option value :=
  match target, source with
  | VObj t, VObj s => Some (VObj (s ∪ t))
  | _, _ => None
  end.

(** [o[key]] on a plain object; a missing key reads as [undefined].
    Property reads on other values are outside the model. *)
Definition get_property (o : value) (key : string) : option value :=
  match o with
  | VObj m => Some (match m !! key with Some v => v | None => VUndef end)
  | _ => None
  end.

(** [console.assert(condition, message)]: writes a diagnostic line
    when the condition is false and returns normally in either case.
    The result is the list of lines written. *)
Definition console_assert (condition : bool) (message : string) : list string :=
  if condition then [] else ["Assertion failed: " +:+ message].

End JS.

Import JS.

(** ** The parser *)

Module Parser.

(** [Just<A>]: a parse state. *)
Record Just : Type := mkJust { parsed : value; rest : string }.

(** [Maybe<A>]: what a parse function returns.  [Success] and
    [Failure] are the two results of the source ([Just] and
    [undefined]).  [Timeout] says the fuel ran out while a loop was
    still running.  [Illtyped] says a value of the wrong kind reached
    a place where the JSDoc types ask for a string or for a plain
    object; what JavaScript's coercions do from there on is not
    modelled. *)
Inductive Maybe : Type :=
  | Success (j : Just)
  | Failure
  | Timeout
  | Illtyped.

(** [Predicate] and [Mapper] callbacks are pure total functions. *)
Definition Predicate : Type := string -> bool.
Definition Mapper : Type := value -> value.

(** [ParseFunction]: the function a [Parser] object wraps, with the
    fuel as first argument. *)
Definition ParseFunction : Type := nat -> Just -> Maybe.

(** [if (point) { ... }]: continue with a successful result, hand any
    other outcome on. *)
Definition on_success (m : Maybe) (k : Just -> Maybe) : Maybe :=
  match m with
  | Success j => k j
  | Failure => Failure
  | Timeout => Timeout
  | Illtyped => Illtyped
  end.

Notation "'let*' x ':=' m 'in' k" := (on_success m (fun x => k))
  (at level 10, x name, m at level 100, k at level 200).

(** [this.parseText = text => this._parse({ rest: text })]. *)
Definition parseText (this : ParseFunction) (fuel : nat) (text : string) : Maybe :=
  this fuel {| parsed := VUndef; rest := text |}.

(** *** Combinators (methods of a parser [this]) *)

(** [save]: [result.parsed[key] = point.parsed] on a new object.  The
    key ["__proto__"] reaches the prototype setter and creates no own
    property. *)
Definition save (this : ParseFunction) (key : string) : ParseFunction :=
  fun fuel input =>
    let* point := this fuel input in
    Success {| parsed := VObj (if String.eqb key "__proto__" then ∅
                               else {[ key := parsed point ]});
               rest := rest point |}.

(** [bind], on the contents of the two results: the merged mapping
    as a value.  The source writes the merge into the object
    [left.parsed]; [Store.bind] below models that.  Operands that are
    not plain objects are outside the typed fragment. *)
Definition bind (this next : ParseFunction) : ParseFunction :=
  fun fuel input =>
    let* left := this fuel input in
    let* right := next fuel left in
    match object_assign (parsed left) (parsed right) with
    | Some merged => Success {| parsed := merged; rest := rest right |}
    | None => Illtyped
    end.

(** [key ? left.parsed[key] : left.parsed], which must be a string to
    serve as the [rest] of a parse state.  An empty [key] is falsy.
    The source hands a value of any kind to the inner parser; what
    the inner parser does with one that is not a string (fail, throw,
    or run on) is outside the typed fragment. *)
Definition inversed_rest (key : option string) (left_parsed : value) : option string :=
  let extracted :=
    match key with
    | Some (String c k) => get_property left_parsed (String c k)
    | Some EmptyString | None => Some left_parsed
    end in
  match extracted with
  | Some (VStr text) => Some text
  | _ => None
  end.

(** [bindInversed], on the contents of the two results, as [bind]. *)
Definition bindInversed (this next : ParseFunction) (key : option string) : ParseFunction :=
  fun fuel input =>
    let* left := this fuel input in
    match inversed_rest key (parsed left) with
    | Some text =>
        let* right := next fuel {| parsed := VUndef; rest := text |} in
        match object_assign (parsed left) (parsed right) with
        | Some merged => Success {| parsed := merged; rest := rest left |}
        | None => Illtyped
        end
    | None => Illtyped
    end.

Definition seq (this next : ParseFunction) : ParseFunction :=
  fun fuel input =>
    let* left := this fuel input in
    next fuel left.

Definition seqInversed (this next : ParseFunction) (key : option string) : ParseFunction :=
  fun fuel input =>
    let* left := this fuel input in
    match inversed_rest key (parsed left) with
    | Some text =>
        let* right := next fuel {| parsed := VUndef; rest := text |} in
        Success {| parsed := parsed right; rest := rest left |}
    | None => Illtyped
    end.

Definition pass (this next : ParseFunction) : ParseFunction :=
  fun fuel input =>
    let* left := this fuel input in
    let* right := next fuel left in
    Success {| parsed := parsed left; rest := rest right |}.

(** [this._parse(input) || other._parse(input)]. *)
Definition or (this other : ParseFunction) : ParseFunction :=
  fun fuel input =>
    match this fuel input with
    | Failure => other fuel input
    | outcome => outcome
    end.

(** [many]: [min], [max] and [condition] are optional in the source;
    an absent bound behaves like [0] (both are falsy), an absent
    condition is [None]. *)
Section many.
Variables (this : ParseFunction) (min max : nat) (condition : option Predicate).

Definition overflow (iterations : nat) : bool :=
  match max with
  | O => false
  | S _ => max <? iterations
  end.

Definition underflow (iterations : nat) : bool :=
  match min with
  | O => false
  | S _ => iterations <? min
  end.

Definition goOn (text : string) (iterations : nat) : bool :=
  match condition with
  | Some condition => truthy text && condition text && negb (overflow iterations)
  | None => truthy text && negb (overflow iterations)
  end.

(** The [return] statement after the loop. *)
Definition many_return (text : string) (elements : list value) (iterations : nat) : Maybe :=
  if overflow iterations || underflow iterations
  then Failure
  else Success {| parsed := VArr elements; rest := text |}.

(** The [while (goOn())] loop followed by the [return]; one unit of
    fuel per iteration, the rest is handed to the element parser. *)
Fixpoint many_loop (input : Just) (fuel : nat)
    (text : string) (elements : list value) (iterations : nat) : Maybe :=
  if goOn text iterations then
    match fuel with
    | O => Timeout
    | S fuel' =>
        match this fuel' {| parsed := parsed input; rest := text |} with
        | Success result =>
            many_loop input fuel' (rest result)
              (elements ++ [parsed result]) (S iterations)
        | Failure => many_return text elements iterations
        | Timeout => Timeout
        | Illtyped => Illtyped
        end
    end
  else many_return text elements iterations.

Definition many : ParseFunction :=
  fun fuel input => many_loop input fuel (rest input) [] 0.
End many.

Definition fmap (this : ParseFunction) (mapper : Mapper) : ParseFunction :=
  fun fuel input =>
    let* result := this fuel input in
    Success {| parsed := mapper (parsed result); rest := rest result |}.

Definition default (this : ParseFunction) (defaultValue : value) : ParseFunction :=
  fun fuel input =>
    match this fuel input with
    | Failure => Success {| parsed := defaultValue; rest := rest input |}
    | outcome => outcome
    end.

(** *** Primitive constructors (static functions) *)

Definition result (v : value) : ParseFunction :=
  fun _ input => Success {| parsed := v; rest := rest input |}.

Definition zero : ParseFunction :=
  fun _ _ => Failure.

Definition item : ParseFunction :=
  fun _ input =>
    match rest input with
    | String c tail => Success {| parsed := VStr (unit_string c); rest := tail |}
    | EmptyString => Failure
    end.

(** [rest && rest[0] == c]; [c] is whatever string the caller gave. *)
Definition char (c : string) : ParseFunction :=
  fun _ input =>
    match rest input with
    | String c0 tail =>
        if String.eqb (unit_string c0) c
        then Success {| parsed := VStr c; rest := tail |}
        else Failure
    | EmptyString => Failure
    end.

Definition sat (condition : Predicate) : ParseFunction :=
  fun _ input =>
    match rest input with
    | String c0 tail =>
        if condition (unit_string c0)
        then Success {| parsed := VStr (unit_string c0); rest := tail |}
        else Failure
    | EmptyString => Failure
    end.

(** [Parser.string]: [input.rest && input.rest.startsWith(template)]. *)
Definition string (template : String.string) : ParseFunction :=
  fun _ input =>
    if truthy (rest input) && startsWith (rest input) template
    then Success {| parsed := VStr template;
                    rest := slice_from (String.length template) (rest input) |}
    else Failure.

Definition peek (condition : Predicate) : ParseFunction :=
  fun _ input =>
    if condition (rest input) then Success input else Failure.

Definition all : ParseFunction :=
  fun _ input => Success {| parsed := VStr (rest input); rest := "" |}.

(** [Parser.end]. *)
Definition end_ : ParseFunction :=
  fun _ input =>
    if truthy (rest input)
    then Failure
    else Success {| parsed := VBool true; rest := "" |}.

(** [cs => cs.join('')], the mapper of [quoted]; it is only ever
    applied to the array [many] returns. *)
Definition join_mapper : Mapper :=
  fun cs =>
    match cs with
    | VArr l => VStr (join l)
    | _ => VUndef
    end.

Definition quoted (quote : String.string) : ParseFunction :=
  let exactQuote := string quote in
  let untilQuote :=
    fmap (many item 0 0 (Some (fun text => negb (startsWith text quote))))
         join_mapper in
  pass (seq exactQuote untilQuote) exactQuote.

(** [Parser.brackets].  The scan loop always ends: [index] grows by
    one in each iteration and stops at [text.length], so [gas] equal to
    the length of the text is never used up (see
    [brackets_loop_exit]). *)
Section brackets.
Variables (left right : String.string).

Fixpoint brackets_loop (text : String.string) (gas index balance : nat) : nat * nat :=
  if negb (balance =? 0) && (index <? String.length text) then
    match gas with
    | O => (index, balance)
    | S gas' =>
        let balance' :=
          match String.get index text with
          | Some char =>
              if String.eqb (unit_string char) left then S balance
              else if String.eqb (unit_string char) right then Nat.pred balance
              else balance
          | None => balance
          end in
        brackets_loop text gas' (S index) balance'
    end
  else (index, balance).

Definition brackets_internal : ParseFunction :=
  fun _ input =>
    let text := rest input in
    match text with
    | String c _ =>
        if String.eqb (unit_string c) left then
          let '(index, balance) := brackets_loop text (String.length text) 1 1 in
          if balance =? 0
          then Success {| parsed := VStr (slice 1 (index - 1) text);
                          rest := slice_from index text |}
          else Failure
        else Failure
    | EmptyString => Failure
    end.

(** Constructing the parser: the [assert] of the source is
    [console.assert], so the result is the diagnostic lines written
    together with the parser, which is returned in every case. *)
Definition brackets : list String.string * ParseFunction :=
  (console_assert (negb (String.eqb left right))
     "The left and right braces must differ",
   brackets_internal).
End brackets.

(** [Parser.repeat]. *)
Section repeat.
Variables (elementParser : ParseFunction) (fromText : String.string -> value)
          (condition : Predicate).

(** [makeText]: the elements after the pending characters, if any,
    have been pushed as one entry ([chars] is emptied by the caller). *)
Definition makeText (chars : list String.string) (elements : list value) : list value :=
  match chars with
  | [] => elements
  | _ :: _ => elements ++ [fromText (join_strings chars)]
  end.

Definition repeat_return (text : String.string) (chars : list String.string)
    (elements : list value) : Maybe :=
  match makeText chars elements with
  | [] => Failure
  | elements' => Success {| parsed := VArr elements'; rest := text |}
  end.

Fixpoint repeat_loop (fuel : nat) (text : String.string)
    (chars : list String.string) (elements : list value) : Maybe :=
  match text with
  | String c tail =>
      if condition text then
        match fuel with
        | O => Timeout
        | S fuel' =>
            match elementParser fuel' {| parsed := VObj ∅; rest := text |} with
            | Success result =>
                repeat_loop fuel' (rest result) []
                  (makeText chars elements ++ [parsed result])
            | Failure =>
                repeat_loop fuel' tail (chars ++ [unit_string c]) elements
            | Timeout => Timeout
            | Illtyped => Illtyped
            end
        end
      else repeat_return text chars elements
  | EmptyString => repeat_return text chars elements
  end.

Definition repeat : ParseFunction :=
  fun fuel input => repeat_loop fuel (rest input) [] [].
End repeat.

End Parser.

(** ** The merge of [bind], with object identity

    [Object.assign(left.parsed, right.parsed)] writes into the object
    [left.parsed] and returns that same object.  Module [Parser] works
    with the contents of values; this module makes the objects and
    their store explicit for the combinators that create, pass on and
    merge mappings: a mapping value is a reference into a store of
    objects, every parse function takes the store and returns it, and
    [bind] updates the object on the left in place.  Objects are never
    freed; a new object gets the next free reference. *)

Module Store.

(** Values: [undefined], booleans, integers, strings and references to
    plain objects. *)
Inductive value : Type :=
  | SUndef
  | SBool (b : bool)
  | SNum (n : Z)
  | SStr (s : string)
  | SRef (o : nat).

(** The objects allocated so far, each with its own properties. *)
Definition store : Type := list (gmap string value).

Record Just : Type := mkJust { parsed : value; rest : string }.

(** A failed parse has no result, but what it wrote into objects
    stays written, so [Failure] carries the store too. *)
Inductive Maybe : Type :=
  | Success (j : Just) (σ : store)
  | Failure (σ : store)
  | Timeout
  | Illtyped.

Definition ParseFunction : Type := nat → store → Just → Maybe.

Definition on_success (m : Maybe) (k : Just → store → Maybe) : Maybe :=
  match m with
  | Success j σ => k j σ
  | Failure σ => Failure σ
  | Timeout => Timeout
  | Illtyped => Illtyped
  end.

Definition parseText (this : ParseFunction) (fuel : nat) (σ : store) (text : string) : Maybe :=
  this fuel σ {| parsed := SUndef; rest := text |}.

(** The entries [target[key] = value] turns into own properties of
    [target], for the entries [from] of the source: an assignment to
    ["__proto__"] reaches the prototype setter, unless [target] has an
    own property of that name. *)
Definition assigned (into from : gmap string value) : gmap string value :=
  match into !! "__proto__" with
  | Some _ => from
  | None => delete "__proto__" from
  end.

(** [Object.assign(target, source)] on two plain objects: the entries
    of [source] are written into the object [target], which is
    returned.  Operands that are not plain objects are outside the
    model. *)
Definition object_assign (σ : store) (target source : value) : option (value * store) :=
  match target, source with
  | SRef t, SRef s =>
      match σ !! t, σ !! s with
      | Some into, Some from => Some (SRef t, <[t := assigned into from ∪ into]> σ)
      | _, _ => None
      end
  | _, _ => None
  end.

(** The own properties of [o] after [o = {}; o[key] = v].  The key
    ["__proto__"] reaches the prototype setter and creates no own
    property. *)
Definition own_entry (key : string) (v : value) : gmap string value :=
  if String.eqb key "__proto__" then ∅ else {[ key := v ]}.

(** [save]: the result mapping is a new object. *)
Definition save (this : ParseFunction) (key : string) : ParseFunction :=
  fun fuel σ input =>
    on_success (this fuel σ input) (fun point σ1 =>
      Success {| parsed := SRef (length σ1); rest := rest point |}
              (σ1 ++ [own_entry key (parsed point)])).

(** [bind]: the merge is written into the object [left.parsed]. *)
Definition bind (this next : ParseFunction) : ParseFunction :=
  fun fuel σ input =>
    on_success (this fuel σ input) (fun left σ1 =>
      on_success (next fuel σ1 left) (fun right σ2 =>
        match object_assign σ2 (parsed left) (parsed right) with
        | Some (merged, σ3) => Success {| parsed := merged; rest := rest right |} σ3
        | None => Illtyped
        end)).

Definition seq (this next : ParseFunction) : ParseFunction :=
  fun fuel σ input =>
    on_success (this fuel σ input) (fun left σ1 => next fuel σ1 left).

(** [this._parse(input) || other._parse(input)]: the alternative runs
    in the store the failed attempt left behind. *)
Definition or (this other : ParseFunction) : ParseFunction :=
  fun fuel σ input =>
    match this fuel σ input with
    | Failure σ1 => other fuel σ1 input
    | outcome => outcome
    end.

(** [Parser.result(value)]: the same value, hence the same object, on
    every call. *)
Definition result (v : value) : ParseFunction :=
  fun _ σ input => Success {| parsed := v; rest := rest input |} σ.

Definition item : ParseFunction :=
  fun _ σ input =>
    match rest input with
    | String c tail => Success {| parsed := SStr (unit_string c); rest := tail |} σ
    | EmptyString => Failure σ
    end.

Definition string (template : String.string) : ParseFunction :=
  fun _ σ input =>
    if truthy (rest input) && startsWith (rest input) template
    then Success {| parsed := SStr template;
                    rest := slice_from (String.length template) (rest input) |} σ
    else Failure σ.

(** [Parser.peek]: the input state itself is returned, with the value
    it carries. *)
Definition peek (condition : String.string → bool) : ParseFunction :=
  fun _ σ input =>
    if condition (rest input) then Success input σ else Failure σ.

End Store.

(** ** Helpers for the scenarios of [parser-test.js] *)

Module Scenarios.

(** The expected result [{ parsed: v, rest: r }]. *)
Definition ok (v : value) (r : string) : Parser.Maybe :=
  Parser.Success {| Parser.parsed := v; Parser.rest := r |}.

(** [c => '0123456789'.includes(c)]. *)
Definition isDigit : Parser.Predicate :=
  fun c => match String.index 0 c "0123456789" with Some _ => true | None => false end.

(** [Parser.sat(c => c != ' ').many(1).fmap(cs => cs.join(''))]. *)
Definition firstWord : Parser.ParseFunction :=
  Parser.fmap (Parser.many (Parser.sat (fun c => negb (String.eqb c " "))) 1 0 None)
    Parser.join_mapper.

(** The double quote character, as a string. *)
Definition dquote : string := unit_string (ascii_of_nat 34).

(** [cs => cs.length]. *)
Definition count_mapper : Parser.Mapper :=
  fun cs => match cs with VArr l => VNum (Z.of_nat (length l)) | _ => VUndef end.

End Scenarios.

(** ** Vocabulary of the properties

    The notions the statements below are written in.  None of them is
    part of the library; each follows the words of the specification
    or names a property of parse functions. *)

(** A remainder is a suffix of a text when some consumed prefix precedes it. *)
Definition is_suffix (r s : string) : Prop := ∃ consumed, s = consumed +:+ r.

(** Texts without an unmatched bracket, following the words of the
    claim: every opening [l] is closed by a later [r] and every [r]
    closes an earlier [l]; other characters are free.  This is the
    usual grammar of balanced words,
    [B ::= empty | c B | l B r B] with [c] neither [l] nor [r]. *)
Inductive Balanced (l r : ascii) : string → Prop :=
  | Balanced_empty : Balanced l r ""
  | Balanced_other c t :
      c ≠ l → c ≠ r → Balanced l r t → Balanced l r (String c t)
  | Balanced_nest t1 t2 :
      Balanced l r t1 → Balanced l r t2 →
      Balanced l r (String l (t1 +:+ String r t2)).

(** More fuel never changes an outcome that was reached. *)
Definition fuel_mono (P : Parser.ParseFunction) : Prop :=
  ∀ f f' input, f ≤ f' → P f input ≠ Parser.Timeout → P f' input = P f input.

(** [P] returns [out] on [input]: some amount of fuel is enough for the
    run to end, and it ends with [out]. *)
Definition returns (P : Parser.ParseFunction) (input : Parser.Just) (out : Parser.Maybe) : Prop :=
  out ≠ Parser.Timeout ∧ ∃ f, P f input = out.

(** [iterates P pv n text vs r]: starting at [text], the loop body of
    [many] succeeds [n] times in a row (each time on a non-empty
    remainder), producing the values [vs] in order and ending at the
    remainder [r]. *)
Inductive iterates (P : Parser.ParseFunction) (pv : value) :
    nat → string → list value → string → Prop :=
  | iterates_O text : iterates P pv 0 text [] text
  | iterates_S n text v r vs r' :
      text ≠ "" →
      returns P {| Parser.parsed := pv; Parser.rest := text |}
        (Parser.Success {| Parser.parsed := v; Parser.rest := r |}) →
      iterates P pv n r vs r' →
      iterates P pv (S n) text (v :: vs) r'.

(** No further iteration is possible at [r]: the input is used up or
    [P] fails there. *)
Definition halts (P : Parser.ParseFunction) (pv : value) (r : string) : Prop :=
  r = "" ∨ returns P {| Parser.parsed := pv; Parser.rest := r |} Parser.Failure.

(** The array of one-character strings [item().many()] collects from a
    text, and its [join('')]. *)
Fixpoint chars_of (t : string) : list value :=
  match t with
  | EmptyString => []
  | String c t' => VStr (unit_string c) :: chars_of t'
  end.

(** [t] contains an occurrence of [q]. *)
Definition contains (q t : string) : Prop := ∃ before after, t = before +:+ q +:+ after.

(** [q] occurs in [s] at position [i]. *)
Definition occurs_at (q s : string) (i : nat) : bool := startsWith (slice_from i s) q.

(** The pending raw text as the array of one-character strings the
    source keeps in [chars]. *)
Fixpoint units (pending : string) : list string :=
  match pending with
  | EmptyString => []
  | String c p => unit_string c :: units p
  end.

(** Flushing the pending text, in the words of the specification: if
    any raw characters were accumulated they become one entry of the
    sequence, converted by the text converter. *)
Definition flush (textConverter : string → value) (pending : string)
    (sequence : list value) : list value :=
  if String.eqb pending "" then sequence else sequence ++ [textConverter pending].

(** The interleave scanner, in the words of the specification.
    [interleave E f cond text pending sequence out rest] says: started
    at the remainder [text] with the raw text [pending] and the entries
    [sequence] produced so far, the scan ends at the remainder [rest]
    having produced the entries [out].
    - It stops when the remainder is empty or the condition is false,
      and then flushes the pending text.
    - When the element parser succeeds, the pending text is flushed,
      the element's value is appended, and the scan goes on at the
      element's remainder.
    - When the element parser fails, exactly one character moves from
      the remainder to the pending text. *)
Inductive interleave (elementParser : Parser.ParseFunction)
    (textConverter : string → value) (condition : Parser.Predicate) :
    string → string → list value → list value → string → Prop :=
  | interleave_stop text pending sequence :
      text = "" ∨ condition text = false →
      interleave elementParser textConverter condition
        text pending sequence (flush textConverter pending sequence) text
  | interleave_element text pending sequence v r out rest :
      text ≠ "" → condition text = true →
      returns elementParser {| Parser.parsed := VObj ∅; Parser.rest := text |}
        (Parser.Success {| Parser.parsed := v; Parser.rest := r |}) →
      interleave elementParser textConverter condition
        r "" (flush textConverter pending sequence ++ [v]) out rest →
      interleave elementParser textConverter condition
        text pending sequence out rest
  | interleave_char c text pending sequence out rest :
      condition (String c text) = true →
      returns elementParser {| Parser.parsed := VObj ∅; Parser.rest := String c text |}
        Parser.Failure →
      interleave elementParser textConverter condition
        text (pending +:+ unit_string c) sequence out rest →
      interleave elementParser textConverter condition
        (String c text) pending sequence out rest.

(** What the scanner returns for a produced sequence. *)
Definition interleave_outcome (sequence : list value) (rest : string) : Parser.Maybe :=
  match sequence with
  | [] => Parser.Failure
  | _ :: _ => Parser.Success {| Parser.parsed := VArr sequence; Parser.rest := rest |}
  end.

(** The parse functions the library can build: its primitive
    constructors, closed under its combinators, with arbitrary
    predicates, mappers, keys, bounds and constants supplied by the
    caller. *)
Inductive Built : Parser.ParseFunction → Prop :=
  | Built_result v : Built (Parser.result v)
  | Built_zero : Built Parser.zero
  | Built_item : Built Parser.item
  | Built_char c : Built (Parser.char c)
  | Built_sat condition : Built (Parser.sat condition)
  | Built_string template : Built (Parser.string template)
  | Built_peek condition : Built (Parser.peek condition)
  | Built_all : Built Parser.all
  | Built_end : Built Parser.end_
  | Built_brackets l r : Built (snd (Parser.brackets l r))
  | Built_repeat E fromText condition :
      Built E → Built (Parser.repeat E fromText condition)
  | Built_save P key : Built P → Built (Parser.save P key)
  | Built_bind P Q : Built P → Built Q → Built (Parser.bind P Q)
  | Built_bindInversed P Q key :
      Built P → Built Q → Built (Parser.bindInversed P Q key)
  | Built_seq P Q : Built P → Built Q → Built (Parser.seq P Q)
  | Built_seqInversed P Q key :
      Built P → Built Q → Built (Parser.seqInversed P Q key)
  | Built_pass P Q : Built P → Built Q → Built (Parser.pass P Q)
  | Built_or P Q : Built P → Built Q → Built (Parser.or P Q)
  | Built_many P min max condition :
      Built P → Built (Parser.many P min max condition)
  | Built_fmap P mapper : Built P → Built (Parser.fmap P mapper)
  | Built_default P v : Built P → Built (Parser.default P v).

(** Monotonic consumption: a successful result carries a remainder
    that is a suffix of the remainder the parser was given. *)
Definition consumes_forward (P : Parser.ParseFunction) : Prop :=
  ∀ fuel input out,
    P fuel input = Parser.Success out →
    is_suffix (Parser.rest out) (Parser.rest input).

(** [P] ends on every input. *)
Definition terminates (P : Parser.ParseFunction) : Prop :=
  ∀ input, ∃ out, returns P input out.

(** [P] strictly consumes input on every success. *)
Definition strictly_consumes (P : Parser.ParseFunction) : Prop :=
  ∀ fuel input out,
    P fuel input = Parser.Success out →
    String.length (Parser.rest out) < String.length (Parser.rest input).

(** [N] succeeds at the remainder [text] without consuming anything. *)
Definition succeeds_in_place (N : Parser.ParseFunction) (text : string) : Prop :=
  ∀ fuel pv, ∃ v,
    N fuel {| Parser.parsed := pv; Parser.rest := text |}
    = Parser.Success {| Parser.parsed := v; Parser.rest := text |}.

(** [m] settles: from some amount of fuel on, the fuel-indexed
    computation [m] gives one and the same outcome, and that outcome is
    not [Timeout]. *)
Definition settles (m : nat → Parser.Maybe) : Prop :=
  ∃ f0 out, out ≠ Parser.Timeout ∧ ∀ f, f0 ≤ f → m f = out.

(** The parsers of the library whose loops are guarded: an unbounded
    [many] and every [Parser.repeat] repeat a parser that strictly
    consumes on success; a [many] with an upper bound may repeat any
    parser. *)
Inductive Productive : Parser.ParseFunction → Prop :=
  | Productive_result v : Productive (Parser.result v)
  | Productive_zero : Productive Parser.zero
  | Productive_item : Productive Parser.item
  | Productive_char c : Productive (Parser.char c)
  | Productive_sat condition : Productive (Parser.sat condition)
  | Productive_string template : Productive (Parser.string template)
  | Productive_peek condition : Productive (Parser.peek condition)
  | Productive_all : Productive Parser.all
  | Productive_end : Productive Parser.end_
  | Productive_brackets l r : Productive (snd (Parser.brackets l r))
  | Productive_repeat E fromText condition :
      Productive E → strictly_consumes E →
      Productive (Parser.repeat E fromText condition)
  | Productive_save P key : Productive P → Productive (Parser.save P key)
  | Productive_bind P Q : Productive P → Productive Q → Productive (Parser.bind P Q)
  | Productive_bindInversed P Q key :
      Productive P → Productive Q → Productive (Parser.bindInversed P Q key)
  | Productive_seq P Q : Productive P → Productive Q → Productive (Parser.seq P Q)
  | Productive_seqInversed P Q key :
      Productive P → Productive Q → Productive (Parser.seqInversed P Q key)
  | Productive_pass P Q : Productive P → Productive Q → Productive (Parser.pass P Q)
  | Productive_or P Q : Productive P → Productive Q → Productive (Parser.or P Q)
  | Productive_many_bounded P min max condition :
      Productive P → max ≠ 0 → Productive (Parser.many P min max condition)
  | Productive_many_consuming P min max condition :
      Productive P → strictly_consumes P →
      Productive (Parser.many P min max condition)
  | Productive_fmap P mapper : Productive P → Productive (Parser.fmap P mapper)
  | Productive_default P v : Productive P → Productive (Parser.default P v).

(** [P] stays within the typed fragment on every input. *)
Definition typed (P : Parser.ParseFunction) : Prop :=
  ∀ fuel input, P fuel input ≠ Parser.Illtyped.

(** The parsers that merge nothing and re-parse nothing: built without
    [bind], [bindInversed] and [seqInversed].  Every remainder such a
    parser sees is a part of the input text, and no value it returns
    decides how the parse goes on. *)
Inductive Textual : Parser.ParseFunction → Prop :=
  | Textual_result v : Textual (Parser.result v)
  | Textual_zero : Textual Parser.zero
  | Textual_item : Textual Parser.item
  | Textual_char c : Textual (Parser.char c)
  | Textual_sat condition : Textual (Parser.sat condition)
  | Textual_string template : Textual (Parser.string template)
  | Textual_peek condition : Textual (Parser.peek condition)
  | Textual_all : Textual Parser.all
  | Textual_end : Textual Parser.end_
  | Textual_brackets l r : Textual (snd (Parser.brackets l r))
  | Textual_repeat E fromText condition :
      Textual E → Textual (Parser.repeat E fromText condition)
  | Textual_save P key : Textual P → Textual (Parser.save P key)
  | Textual_seq P Q : Textual P → Textual Q → Textual (Parser.seq P Q)
  | Textual_pass P Q : Textual P → Textual Q → Textual (Parser.pass P Q)
  | Textual_or P Q : Textual P → Textual Q → Textual (Parser.or P Q)
  | Textual_many P min max condition :
      Textual P → Textual (Parser.many P min max condition)
  | Textual_fmap P mapper : Textual P → Textual (Parser.fmap P mapper)
  | Textual_default P v : Textual P → Textual (Parser.default P v).

(** The longest prefix of [s] whose characters all pass the test [p]
    (the test is given one-character strings, as [Parser.sat] gives
    them), and what follows it. *)
Fixpoint take_while (p : Parser.Predicate) (s : string) : string :=
  match s with
  | EmptyString => EmptyString
  | String c s' => if p (unit_string c) then String c (take_while p s') else EmptyString
  end.

Fixpoint drop_while (p : Parser.Predicate) (s : string) : string :=
  match s with
  | EmptyString => EmptyString
  | String c s' => if p (unit_string c) then drop_while p s' else s
  end.

(** Texts in which some opening bracket is never closed but no closing
    bracket is unmatched, [U ::= B | B l U]: balanced stretches
    separated by opening brackets that stay open. *)
Inductive Unclosed (l r : ascii) : string → Prop :=
  | Unclosed_balanced t : Balanced l r t → Unclosed l r t
  | Unclosed_open t1 t2 :
      Balanced l r t1 → Unclosed l r t2 → Unclosed l r (t1 +:+ String l t2).

(** [Closes l r n w]: the text [w] closes [n] open brackets, one after
    the other, with balanced text before each closing bracket:
    [w = t1 r t2 r ... tn r]. *)
Inductive Closes (l r : ascii) : nat → string → Prop :=
  | Closes_O : Closes l r 0 ""
  | Closes_S n t w :
      Balanced l r t → Closes l r n w → Closes l r (S n) (t +:+ String r w).

(** ** The scenarios of [parser-test.js], replayed on the embedding *)

Section scenario_runs.
Import Parser Scenarios.

Example test_result :
  parseText (result (VStr "result")) 0 "some text" = ok (VStr "result") "some text".
Proof. reflexivity. Qed.

Example test_zero : parseText zero 0 "" = Failure /\ parseText zero 0 "text" = Failure.
Proof. split; reflexivity. Qed.

Example test_item :
  parseText item 0 "c" = ok (VStr "c") "" /\
  parseText item 0 "abc" = ok (VStr "a") "bc" /\
  parseText item 0 "" = Failure.
Proof. repeat split. Qed.

Example test_char :
  parseText (char "a") 0 "a" = ok (VStr "a") "" /\
  parseText (char "a") 0 "ab" = ok (VStr "a") "b" /\
  parseText (char "a") 0 "" = Failure /\
  parseText (char "a") 0 "bc" = Failure.
Proof. repeat split. Qed.

Example test_sat :
  parseText (sat isDigit) 0 "0" = ok (VStr "0") "" /\
  parseText (sat isDigit) 0 "0 goon" = ok (VStr "0") " goon" /\
  parseText (sat isDigit) 0 "" = Failure /\
  parseText (sat isDigit) 0 "b" = Failure.
Proof. repeat split. Qed.

Example test_string :
  parseText (string "line") 0 "line" = ok (VStr "line") "" /\
  parseText (string "line") 0 "lines" = ok (VStr "line") "s" /\
  parseText (string "line") 0 " line" = Failure.
Proof. repeat split. Qed.

Example test_all :
  parseText all 0 "whatever" = ok (VStr "whatever") "" /\
  parseText all 0 "" = ok (VStr "") "".
Proof. repeat split. Qed.

Example test_end :
  parseText end_ 0 "" = ok (VBool true) "" /\
  parseText end_ 0 "anything" = Failure.
Proof. repeat split. Qed.

Example test_quoted :
  parseText (quoted "ox") 30 "ox pospel uzhe gorox!" = ok (VStr " pospel uzhe gor") "!" /\
  parseText (quoted "ox") 30 "oxota" = Failure /\
  parseText (quoted "ox") 30 "paroxod" = Failure.
Proof. repeat split. Qed.

Example test_brackets :
  let parser := snd (brackets "(" ")") in
  fst (brackets "(" ")") = [] /\
  parseText parser 0 "(text)" = ok (VStr "text") "" /\
  parseText parser 0 "(text) go on" = ok (VStr "text") " go on" /\
  parseText parser 0 "(internal (brackets))" = ok (VStr "internal (brackets)") "" /\
  parseText parser 0 "(unclosed bracket" = Failure /\
  parseText parser 0 "(unmatched (brackets)" = Failure /\
  parseText parser 0 "no brackets" = Failure.
Proof. repeat split. Qed.

Example test_repeat :
  let notHoho : Predicate := fun text => negb (startsWith text "hoho") in
  let twos := fmap (many (char "2") 1 0 None) (fun _ => VStr "twos") in
  let fromText : String.string -> value := fun _ => VStr "?" in
  parseText (repeat twos fromText notHoho) 30 "222olala552233hoho!"
  = ok (VArr [VStr "twos"; VStr "?"; VStr "twos"; VStr "?"]) "hoho!".
Proof. vm_compute. reflexivity. Qed.

Example test_save :
  parseText (save (char "A") "found") 0 "A cat"
  = ok (VObj {[ "found" := VStr "A" ]}) " cat".
Proof. reflexivity. Qed.

Example test_bind :
  parseText (bind (save (string "Alice") "first") (save (string "Bob") "second"))
            0 "AliceBobPete"
  = ok (VObj (<["first" := VStr "Alice"]> {[ "second" := VStr "Bob" ]})) "Pete".
Proof. vm_compute. reflexivity. Qed.

Example test_bindInversed :
  parseText (bindInversed (save (quoted dquote) "allQuoted")
                          (save firstWord "word") (Some "allQuoted"))
            30 (dquote +:+ "found word" +:+ dquote +:+ " rest")
  = ok (VObj (<["allQuoted" := VStr "found word"]> {[ "word" := VStr "found" ]})) " rest".
Proof. vm_compute. reflexivity. Qed.

Example test_seq :
  parseText (seq (string "ignored ") (string "PRISE")) 0 "ignored PRISE rest"
  = ok (VStr "PRISE") " rest".
Proof. reflexivity. Qed.

Example test_seqInversed :
  parseText (seqInversed (quoted dquote) firstWord None) 30
            (dquote +:+ "found word" +:+ dquote +:+ " rest")
  = ok (VStr "found") " rest".
Proof. vm_compute. reflexivity. Qed.

Example test_pass :
  let parser := pass (fmap (many (char "2") 1 0 None) count_mapper)
                     (many (char " ") 0 0 None) in
  parseText parser 30 "2go on" = ok (VNum 1) "go on" /\
  parseText parser 30 "2 go on" = ok (VNum 1) "go on" /\
  parseText parser 30 "22222     go on" = ok (VNum 5) "go on".
Proof. repeat split. Qed.

Example test_or :
  let parser := or (char "2") (char "3") in
  parseText parser 0 "2rest" = ok (VStr "2") "rest" /\
  parseText parser 0 "3rest" = ok (VStr "3") "rest" /\
  parseText parser 0 "4" = Failure /\
  parseText parser 0 "" = Failure.
Proof. repeat split. Qed.

Example test_many :
  let notLast : Predicate := fun text => startsWith text "sahsah" in
  let parser := many (string "sah") 2 3 (Some notLast) in
  parseText parser 30 "sahsahsah-boo" = ok (VArr [VStr "sah"; VStr "sah"]) "sah-boo" /\
  parseText parser 30 "sahsahsahsah-boo"
    = ok (VArr [VStr "sah"; VStr "sah"; VStr "sah"]) "sah-boo" /\
  parseText parser 30 "sah-boo" = Failure /\
  parseText parser 30 "sahsah-boo" = Failure.
Proof. repeat split. Qed.

Example test_fmap :
  parseText (save (fmap (many (sat isDigit) 1 0 None) count_mapper) "digitsCount")
            30 "31415 etc"
  = ok (VObj {[ "digitsCount" := VNum 5 ]}) " etc".
Proof. vm_compute. reflexivity. Qed.

Example test_default :
  let parser := default (fmap (many (sat isDigit) 1 0 None) join_mapper) (VNum 50) in
  parseText parser 30 "12345" = ok (VStr "12345") "" /\
  parseText parser 30 "12345 rest" = ok (VStr "12345") " rest" /\
  parseText parser 30 "no digits" = ok (VNum 50) "no digits".
Proof. repeat split. Qed.

End scenario_runs.

(** ** Facts about the string operations *)

Section string_facts.
Implicit Types (s t p : string) (c : ascii).

Lemma append_cons c s t : String c s +:+ t = String c (s +:+ t).
Proof. reflexivity. Qed.

Lemma append_empty_l s : "" +:+ s = s.
Proof. reflexivity. Qed.

Lemma append_empty_r s : s +:+ "" = s.
Proof. induction s as [|c s IH]; [reflexivity|]. by rewrite append_cons, IH. Qed.

Lemma append_assoc s t p : (s +:+ t) +:+ p = s +:+ (t +:+ p).
Proof. induction s as [|c s IH]; [reflexivity|]. by rewrite !append_cons, IH. Qed.

Lemma length_append s t : String.length (s +:+ t) = String.length s + String.length t.
Proof. induction s as [|c s IH]; [reflexivity|]. rewrite append_cons. simpl. by rewrite IH. Qed.

Lemma append_inv_head p s t : p +:+ s = p +:+ t → s = t.
Proof. induction p as [|c p IH]; [done|]. rewrite !append_cons. intros [= H]. auto. Qed.

Lemma startsWith_empty s : startsWith s "" = true.
Proof. by destruct s. Qed.

Lemma startsWith_cons c c' s p :
  startsWith (String c s) (String c' p) = bool_decide (c' = c) && startsWith s p.
Proof.
  unfold startsWith. simpl. destruct (ascii_dec c' c) as [->|Hne].
  - by rewrite bool_decide_eq_true_2.
  - by rewrite bool_decide_eq_false_2.
Qed.

Lemma startsWith_append p s : startsWith (p +:+ s) p = true.
Proof.
  induction p as [|c p IH]; [apply startsWith_empty|].
  rewrite append_cons, startsWith_cons, IH. by rewrite bool_decide_eq_true_2.
Qed.

(** [startsWith] against its meaning: [p] is an initial segment. *)
Lemma startsWith_spec s p : startsWith s p = true ↔ ∃ r, s = p +:+ r.
Proof.
  split.
  - revert s. induction p as [|c p IH]; intros s H.
    + by exists s.
    + destruct s as [|c' s]; [done|].
      rewrite startsWith_cons in H. apply andb_true_iff in H as [Hc H].
      apply bool_decide_eq_true in Hc as ->.
      destruct (IH _ H) as [r ->]. by exists r.
  - intros [r ->]. apply startsWith_append.
Qed.

Lemma slice_from_0 s : slice_from 0 s = s.
Proof. by destruct s. Qed.

Lemma slice_from_length_append p s : slice_from (String.length p) (p +:+ s) = s.
Proof. induction p as [|c p IH]; [apply slice_from_0|]. by rewrite append_cons. Qed.

Lemma slice_from_length s n : String.length (slice_from n s) = String.length s - n.
Proof. revert s. induction n as [|n IH]; intros [|c s]; simpl; auto with lia. Qed.

Lemma get_length_append p c s : String.get (String.length p) (p +:+ String c s) = Some c.
Proof. induction p as [|c' p IH]; [reflexivity|]. by rewrite append_cons. Qed.

Lemma substring_0_length_append p s : String.substring 0 (String.length p) (p +:+ s) = p.
Proof.
  induction p as [|c p IH]; [by destruct s|].
  rewrite append_cons. simpl. by rewrite IH.
Qed.

Lemma slice_append p t s :
  slice (String.length p) (String.length p + String.length t) (p +:+ t +:+ s) = t.
Proof.
  unfold slice. replace (_ + _ - _) with (String.length t) by lia.
  induction p as [|c p IH].
  - rewrite append_empty_l. apply substring_0_length_append.
  - by rewrite append_cons.
Qed.

Lemma unit_string_eqb c c' : String.eqb (unit_string c) (unit_string c') = bool_decide (c = c').
Proof.
  destruct (decide (c = c')) as [->|Hne].
  - by rewrite String.eqb_refl, bool_decide_eq_true_2.
  - rewrite bool_decide_eq_false_2 by done.
    apply String.eqb_neq. unfold unit_string. congruence.
Qed.

Lemma truthy_spec s : truthy s = true ↔ s ≠ "".
Proof. by destruct s. Qed.

End string_facts.

Section suffix_facts.
Implicit Types (r s t : string).

Lemma is_suffix_refl s : is_suffix s s.
Proof. by exists "". Qed.

Lemma is_suffix_trans r s t : is_suffix r s → is_suffix s t → is_suffix r t.
Proof. intros [p ->] [q ->]. exists (q +:+ p). by rewrite append_assoc. Qed.

Lemma is_suffix_empty s : is_suffix "" s.
Proof. exists s. by rewrite append_empty_r. Qed.

Lemma is_suffix_tail c s : is_suffix s (String c s).
Proof. by exists (unit_string c). Qed.

Lemma is_suffix_slice_from n s : is_suffix (slice_from n s) s.
Proof.
  revert s. induction n as [|n IH]; intros s.
  - rewrite slice_from_0. apply is_suffix_refl.
  - destruct s as [|c s]; [apply is_suffix_refl|].
    simpl. eapply is_suffix_trans; [apply IH|apply is_suffix_tail].
Qed.

Lemma is_suffix_length r s : is_suffix r s → String.length r ≤ String.length s.
Proof. intros [p ->]. rewrite length_append. lia. Qed.
End suffix_facts.

(** ** [Parser.string]: matching a literal *)

Section literal.
Import Parser.

Lemma string_unfold template fuel x :
  parseText (string template) fuel x =
    if truthy x && startsWith x template
    then Success {| parsed := VStr template;
                    rest := slice_from (String.length template) x |}
    else Failure.
Proof. reflexivity. Qed.
End literal.

(** C7, as stated, fails on the empty input: the empty text starts with
    the empty template, yet [Parser.string ""] returns [Failure] there,
    because the guard [input.rest && ...] rejects an empty remainder
    before [startsWith] is consulted. *)
Lemma string_empty_input_counterexample :
  (∃ r, "" = "" +:+ r) ∧
  startsWith "" "" = true ∧
  Parser.parseText (Parser.string "") 0 "" = Parser.Failure.
Proof. split; [by exists ""|]. split; reflexivity. Qed.

(** C7 (amended): for every template [s] and every non-empty input [x],
    [Parser.string s] succeeds exactly when [x] starts with [s]; it then
    returns the value [s] and the remainder that follows [s] in [x],
    which is [length s] code units shorter than [x].  On a non-empty
    input that does not start with [s] it returns [Failure], and on the
    empty input it returns [Failure] for every template, the empty one
    included. *)
Theorem string_matches_prefix (s x : string) (fuel : nat) :
  (x ≠ "" → ∀ r, x = s +:+ r →
     Parser.parseText (Parser.string s) fuel x
       = Parser.Success {| Parser.parsed := VStr s; Parser.rest := r |}
     ∧ String.length r = String.length x - String.length s) ∧
  (x ≠ "" → (∀ r, x ≠ s +:+ r) →
     Parser.parseText (Parser.string s) fuel x = Parser.Failure) ∧
  (x = "" → Parser.parseText (Parser.string s) fuel x = Parser.Failure).
Proof.
  rewrite string_unfold. repeat split.
  - subst x. apply truthy_spec in H as ->.
    by rewrite startsWith_append, slice_from_length_append.
  - subst x. rewrite length_append. lia.
  - intros Hx Hno. destruct (startsWith x s) eqn:Hs.
    + apply startsWith_spec in Hs as [r ->]. by destruct (Hno r).
    + by rewrite andb_false_r.
  - by intros ->.
Qed.

Lemma string_matches_prefix_witness :
  "lines" ≠ "" ∧ "lines" = "line" +:+ "s" ∧
  Parser.parseText (Parser.string "line") 0 "lines"
    = Parser.Success {| Parser.parsed := VStr "line"; Parser.rest := "s" |}.
Proof.
  split; [discriminate|]. split; [reflexivity|].
  apply (proj1 (string_matches_prefix "line" "lines" 0)); [discriminate|reflexivity].
Defined.

(** ** [Parser.brackets]: balanced brackets *)

Section brackets_facts.
Import Parser.
Variables (left right : String.string).

Lemma brackets_loop_unfold text gas index balance :
  brackets_loop left right text gas index balance =
    if negb (balance =? 0) && (index <? String.length text) then
      match gas with
      | O => (index, balance)
      | S gas' =>
          brackets_loop left right text gas' (S index)
            match String.get index text with
            | Some char =>
                if String.eqb (unit_string char) left then S balance
                else if String.eqb (unit_string char) right then Nat.pred balance
                else balance
            | None => balance
            end
      end
    else (index, balance).
Proof. by destruct gas. Qed.

(** The gas handed to the loop by [brackets_internal] is never the
    reason it stops: the loop ends with the counter at zero or with
    the index at the end of the text, as the [while] condition says. *)
Lemma brackets_loop_exit text gas index balance :
  String.length text ≤ index + gas →
  let '(index', balance') := brackets_loop left right text gas index balance in
  balance' = 0 ∨ String.length text ≤ index'.
Proof.
  revert index balance. induction gas as [|gas IH]; intros index balance Hgas.
  - rewrite brackets_loop_unfold.
    destruct (Nat.ltb_spec index (String.length text)); [lia|].
    rewrite andb_false_r. by right.
  - rewrite brackets_loop_unfold.
    destruct (Nat.eqb_spec balance 0) as [->|Hb]; [by left|].
    destruct (Nat.ltb_spec index (String.length text)); [|by right].
    simpl. apply IH. lia.
Qed.

(** With identical markers the closing branch is never taken, so the
    counter never comes back to zero. *)
Lemma brackets_loop_positive text gas index balance :
  left = right → 0 < balance →
  0 < snd (brackets_loop left right text gas index balance).
Proof.
  intros Hsame. revert index balance.
  induction gas as [|gas IH]; intros index balance Hb;
    rewrite brackets_loop_unfold;
    destruct (negb (balance =? 0) && (index <? String.length text)); try done.
  apply IH. destruct (String.get index text) as [char|]; [|done].
  destruct (String.eqb (unit_string char) left) eqn:Hleft; [lia|].
  rewrite <- Hsame, Hleft. done.
Qed.
End brackets_facts.

(** C8: the source guards [Parser.brackets] with [assert(left != right)],
    but [assert] is [console.assert]: one diagnostic line is written,
    the parser is built all the same, and it answers every input with
    an ordinary [Failure]. *)
Theorem brackets_same_marker_no_fault (marker text : string) (fuel : nat) :
  fst (Parser.brackets marker marker)
    = ["Assertion failed: The left and right braces must differ"] ∧
  Parser.parseText (snd (Parser.brackets marker marker)) fuel text = Parser.Failure.
Proof.
  split.
  - unfold Parser.brackets, console_assert. simpl. by rewrite String.eqb_refl.
  - unfold Parser.parseText, Parser.brackets, Parser.brackets_internal.
    cbn [snd Parser.rest].
    destruct text as [|c text]; [done|].
    destruct (String.eqb (unit_string c) marker); [|done].
    pose proof (brackets_loop_positive marker marker (String c text)
                  (String.length (String c text)) 1 1 eq_refl) as Hpos.
    destruct (Parser.brackets_loop _ _ _ _ _ _) as [index balance]. simpl in Hpos.
    destruct (Nat.eqb_spec balance 0); [lia|done].
Qed.

Example brackets_same_marker_run :
  Parser.parseText (snd (Parser.brackets "(" "(")) 0 "(a(" = Parser.Failure.
Proof. reflexivity. Qed.

Section brackets_balanced.
Import Parser.
Variables (l r : ascii).
Hypothesis l_neq_r : l ≠ r.

Let left := unit_string l.
Let right := unit_string r.

Local Ltac text_eq :=
  unfold unit_string;
  repeat first [rewrite append_assoc | rewrite append_cons | rewrite append_empty_l];
  reflexivity.
Local Ltac length_eq :=
  unfold unit_string; rewrite ?length_append; cbn [String.length];
  rewrite ?length_append; cbn [String.length]; lia.

Lemma brackets_loop_step text pre c post gas index balance :
  text = pre +:+ String c post → index = String.length pre →
  brackets_loop left right text (S gas) index (S balance)
  = brackets_loop left right text gas (S index)
      (if bool_decide (c = l) then S (S balance)
       else if bool_decide (c = r) then balance else S balance).
Proof.
  intros -> ->. rewrite brackets_loop_unfold.
  replace (String.length pre <? String.length (pre +:+ String c post)) with true
    by (symmetry; apply Nat.ltb_lt; rewrite length_append; simpl; lia).
  cbn [Nat.eqb negb andb]. rewrite get_length_append.
  unfold left, right. rewrite !unit_string_eqb.
  by repeat case_bool_decide.
Qed.

(** Scanning a balanced stretch [t] leaves the nesting counter where
    it was and moves the index past [t]; the counter stays positive
    on the way, so the loop does not stop inside [t]. *)
Lemma brackets_loop_balanced t :
  Balanced l r t → ∀ text pre post gas index balance,
  text = pre +:+ t +:+ post → index = String.length pre →
  brackets_loop left right text (String.length t + gas) index (S balance)
  = brackets_loop left right text gas (index + String.length t) (S balance).
Proof.
  induction 1 as [|c t Hl Hr Ht IH|t1 t2 Ht1 IH1 Ht2 IH2];
    intros text pre post gas index balance Htext Hindex.
  - simpl. by rewrite Nat.add_0_r.
  - cbn [String.length plus].
    rewrite (brackets_loop_step text pre c (t +:+ post)) by (done || by subst).
    rewrite bool_decide_eq_false_2, bool_decide_eq_false_2 by done.
    rewrite (IH text (pre +:+ unit_string c) post)
      by (subst; first [text_eq | length_eq]).
    f_equal. lia.
  - cbn [String.length plus]. rewrite length_append. cbn [String.length].
    rewrite (brackets_loop_step text pre l (t1 +:+ String r t2 +:+ post))
      by (subst; first [text_eq | length_eq]).
    rewrite bool_decide_eq_true_2 by done.
    replace (String.length t1 + S (String.length t2) + gas)
      with (String.length t1 + S (String.length t2 + gas)) by lia.
    rewrite (IH1 text (pre +:+ unit_string l) (String r t2 +:+ post))
      by (subst; first [text_eq | length_eq]).
    rewrite (brackets_loop_step text (pre +:+ unit_string l +:+ t1) r (t2 +:+ post))
      by (subst; first [text_eq | length_eq]).
    rewrite bool_decide_eq_false_2 by (intros ?; by apply l_neq_r).
    rewrite bool_decide_eq_true_2 by done.
    rewrite (IH2 text (pre +:+ unit_string l +:+ t1 +:+ unit_string r) post)
      by (subst; first [text_eq | length_eq]).
    f_equal. lia.
Qed.

Lemma brackets_internal_balanced t rest_text fuel :
  Balanced l r t →
  parseText (brackets_internal left right) fuel
    (unit_string l +:+ t +:+ unit_string r +:+ rest_text)
  = Success {| parsed := VStr t; rest := rest_text |}.
Proof.
  intros Ht. unfold parseText, brackets_internal. cbn [rest].
  remember (unit_string l +:+ t +:+ unit_string r +:+ rest_text) as text eqn:Htext.
  assert (Hlen : String.length text = String.length t + S (S (String.length rest_text)))
    by (subst text; length_eq).
  destruct text as [|c tail] eqn:Hcons; [done|].
  assert (c = l) as -> by (unfold unit_string in Htext; by injection Htext).
  fold (unit_string l). fold left. rewrite String.eqb_refl, Hlen, <- Hcons.
  rewrite (brackets_loop_balanced t Ht text (unit_string l) (unit_string r +:+ rest_text))
    by (first [by rewrite Hcons | length_eq]).
  rewrite (brackets_loop_step text (unit_string l +:+ t) r rest_text)
    by (first [rewrite Hcons, Htext; text_eq | length_eq]).
  rewrite bool_decide_eq_false_2 by (intros ?; by apply l_neq_r).
  rewrite bool_decide_eq_true_2 by done.
  rewrite brackets_loop_unfold. cbn [Nat.eqb negb andb].
  rewrite Hcons, Htext. f_equal. f_equal.
  - f_equal. change (String.length (unit_string l)) with 1.
    replace (S (1 + String.length t) - 1) with (1 + String.length t) by lia.
    apply (slice_append (unit_string l) t (unit_string r +:+ rest_text)).
  - rewrite <- !append_assoc.
    replace (S (1 + String.length t))
      with (String.length ((unit_string l +:+ t) +:+ unit_string r))
      by length_eq.
    apply slice_from_length_append.
Qed.
End brackets_balanced.

(** C4: for distinct bracket characters [l] and [r] and every text [t]
    without an unmatched [l] or [r], [brackets(l, r)] applied to
    [l + t + r] followed by any further text succeeds with the value
    [t] and the remainder that follows the matching closing bracket
    (the empty remainder when nothing follows), at every nesting
    depth. *)
Theorem brackets_round_trip (l r : ascii) (t after : string) (fuel : nat) :
  l ≠ r → Balanced l r t →
  Parser.parseText (snd (Parser.brackets (unit_string l) (unit_string r))) fuel
    (unit_string l +:+ t +:+ unit_string r +:+ after)
    = Parser.Success {| Parser.parsed := VStr t; Parser.rest := after |}
  ∧ Parser.parseText (snd (Parser.brackets (unit_string l) (unit_string r))) fuel
    (unit_string l +:+ t +:+ unit_string r)
    = Parser.Success {| Parser.parsed := VStr t; Parser.rest := "" |}.
Proof.
  intros Hlr Ht. split.
  - by apply brackets_internal_balanced.
  - rewrite <- (append_empty_r (unit_string r)). by apply brackets_internal_balanced.
Qed.

Lemma brackets_round_trip_witness :
  "("%char ≠ ")"%char ∧ Balanced "(" ")" "internal (brackets)" ∧
  Parser.parseText (snd (Parser.brackets "(" ")")) 0 "(internal (brackets)) go on"
    = Parser.Success {| Parser.parsed := VStr "internal (brackets)";
                        Parser.rest := " go on" |}.
Proof.
  assert (Hb : Balanced "(" ")" "internal (brackets)").
  { do 9 (apply Balanced_other; [discriminate|discriminate|]).
    apply (Balanced_nest "(" ")" "brackets" "").
    - do 8 (apply Balanced_other; [discriminate|discriminate|]). apply Balanced_empty.
    - apply Balanced_empty. }
  split; [discriminate|]. split; [exact Hb|].
  apply (proj1 (brackets_round_trip "(" ")" "internal (brackets)" " go on" 0
                  ltac:(discriminate) Hb)).
Defined.

(** ** [bind] and [bindInversed]: merging mapping results *)

Section merge_facts.
Implicit Types (a b : gmap string value).

(** [Object.assign] on two mappings is their key-wise union, and the
    source operand decides the shared keys. *)
Lemma object_assign_lookup a b k :
  (b ∪ a) !! k = match b !! k with Some v => Some v | None => a !! k end.
Proof.
  destruct (b !! k) as [v|] eqn:Hb.
  - by apply lookup_union_Some_l.
  - by rewrite lookup_union_r.
Qed.

Lemma object_assign_dom a b : dom (b ∪ a) = dom a ∪ dom b.
Proof. by rewrite dom_union_L, (comm_L (∪)). Qed.
End merge_facts.

Section store_facts.
Implicit Types (σ : Store.store) (m : gmap string Store.value).

(** The content [Object.assign] leaves in the target: the key-wise
    union, the source deciding the shared keys. *)
Lemma store_union_lookup (held b : gmap string Store.value) k :
  (b ∪ held) !! k = match b !! k with Some v => Some v | None => held !! k end.
Proof.
  destruct (b !! k) as [v|] eqn:Hb.
  - by apply lookup_union_Some_l.
  - by rewrite lookup_union_r.
Qed.

Lemma store_union_dom (held b : gmap string Store.value) :
  dom (b ∪ held) = dom held ∪ dom b.
Proof. by rewrite dom_union_L, (comm_L (∪)). Qed.

(** What [Object.assign] does to the store: the target object, and
    only that one, is rewritten. *)
Lemma store_assigned into from :
  from !! "__proto__" = None → Store.assigned into from = from.
Proof.
  intros Hfrom. unfold Store.assigned.
  destruct (into !! "__proto__"); [done|by apply delete_id].
Qed.

Lemma store_object_assign σ t s into from :
  σ !! t = Some into → σ !! s = Some from → from !! "__proto__" = None →
  Store.object_assign σ (Store.SRef t) (Store.SRef s)
    = Some (Store.SRef t, <[t := from ∪ into]> σ).
Proof.
  intros Ht Hs Hfrom. unfold Store.object_assign.
  by rewrite Ht, Hs, store_assigned.
Qed.

Lemma store_bind_success (P Q : Store.ParseFunction) fuel σ input lres σ1 rres σ2 p q held b :
  P fuel σ input = Store.Success lres σ1 → Q fuel σ1 lres = Store.Success rres σ2 →
  Store.parsed lres = Store.SRef p → Store.parsed rres = Store.SRef q →
  σ2 !! p = Some held → σ2 !! q = Some b → b !! "__proto__" = None →
  Store.bind P Q fuel σ input
    = Store.Success {| Store.parsed := Store.SRef p; Store.rest := Store.rest rres |}
                    (<[p := b ∪ held]> σ2).
Proof.
  intros HP HQ Hp Hq Hheld Hb Hplain. unfold Store.bind. rewrite HP. cbn. rewrite HQ. cbn.
  rewrite Hp, Hq. by rewrite (store_object_assign σ2 p q held b).
Qed.
End store_facts.

(** C6 (the claim as stated, refuted): the mapping [bind] returns is
    not always the key-wise union of the two mapping results.  [bind]
    hands the state [P] returned, with [P]'s result object in it, to
    [Q]; a [Q] that merges into that object changes it before the
    outer merge.  For
    [item().save('p').bind(peek(() => true).bind(item().save('x')).seq(item().save('y')))]
    on ["abc"], [P] returns the mapping [{p: 'a'}], [Q] returns the
    mapping [{y: 'c'}], and [bind] returns an object with the keys
    [p], [x] and [y].  Likewise a constant result object keeps the
    keys of an earlier parse:
    [result(o).bind(string('a').save('x').or(string('b').save('y')))],
    run on ["a"] and then on ["b"], returns [x] with the second
    result although the second parse saved [y] only. *)
Lemma bind_in_place_counterexample :
  let P := Store.save Store.item "p" in
  let Q := Store.seq (Store.bind (Store.peek (fun _ => true)) (Store.save Store.item "x"))
                     (Store.save Store.item "y") in
  let input := {| Store.parsed := Store.SUndef; Store.rest := "abc" |} in
  let W := Store.bind (Store.result (Store.SRef 0))
             (Store.or (Store.save (Store.string "a") "x")
                       (Store.save (Store.string "b") "y")) in
  (∃ σ1 σ2 σ3 merged,
     P 0 [] input
       = Store.Success {| Store.parsed := Store.SRef 0; Store.rest := "bc" |} σ1 ∧
     σ1 !! 0 = Some {[ "p" := Store.SStr "a" ]} ∧
     Q 0 σ1 {| Store.parsed := Store.SRef 0; Store.rest := "bc" |}
       = Store.Success {| Store.parsed := Store.SRef 2; Store.rest := "" |} σ2 ∧
     σ2 !! 2 = Some {[ "y" := Store.SStr "c" ]} ∧
     Store.bind P Q 0 [] input
       = Store.Success {| Store.parsed := Store.SRef 0; Store.rest := "" |} σ3 ∧
     σ3 !! 0 = Some merged ∧
     merged !! "x" = Some (Store.SStr "b") ∧
     (({[ "y" := Store.SStr "c" ]} ∪ {[ "p" := Store.SStr "a" ]})
        : gmap string Store.value) !! "x" = None) ∧
  (∃ σ1 σ2 second,
     Store.parseText W 0 [∅] "a"
       = Store.Success {| Store.parsed := Store.SRef 0; Store.rest := "" |} σ1 ∧
     Store.parseText W 0 σ1 "b"
       = Store.Success {| Store.parsed := Store.SRef 0; Store.rest := "" |} σ2 ∧
     σ2 !! 0 = Some second ∧
     second !! "x" = Some (Store.SStr "a") ∧ second !! "y" = Some (Store.SStr "b")).
Proof.
  intros P Q input W. split.
  - do 4 eexists. repeat split; try (vm_compute; reflexivity).
  - do 3 eexists. repeat split; try (vm_compute; reflexivity).
Qed.

(** C6 (amended): [bind(P, Q)] runs [P], then runs [Q] on the state
    [P] returned.  It fails when [P] fails and when [Q] fails after
    [P]; it succeeds only when both do.  When both results are
    mappings (with ordinary property names: [Q]'s has no own property
    ["__proto__"]), it writes the entries of [Q]'s result into the object
    [P] returned and returns that object with [Q]'s remainder: the
    object then holds the key-wise union of [Q]'s mapping and of what
    [P]'s object held when [Q] returned, each key carrying [Q]'s entry
    if [Q] has one.  This is the key-wise union of [P]'s and [Q]'s
    mapping results whenever the run of [Q] left the object of [P] as
    [P] returned it. *)
Theorem bind_merges_in_place (P Q : Store.ParseFunction) (fuel : nat)
    (σ : Store.store) (input : Store.Just) :
  ((∃ σ', Store.bind P Q fuel σ input = Store.Failure σ') ↔
     (∃ σ', P fuel σ input = Store.Failure σ') ∨
     ∃ lres σ1 σ', P fuel σ input = Store.Success lres σ1 ∧
                   Q fuel σ1 lres = Store.Failure σ') ∧
  (∀ out σ', Store.bind P Q fuel σ input = Store.Success out σ' →
     ∃ lres σ1 rres σ2, P fuel σ input = Store.Success lres σ1 ∧
                        Q fuel σ1 lres = Store.Success rres σ2) ∧
  (∀ lres σ1 rres σ2 p q a held b,
     P fuel σ input = Store.Success lres σ1 → Q fuel σ1 lres = Store.Success rres σ2 →
     Store.parsed lres = Store.SRef p → Store.parsed rres = Store.SRef q →
     σ1 !! p = Some a → σ2 !! p = Some held → σ2 !! q = Some b →
     b !! "__proto__" = None →
     ∃ merged,
       Store.bind P Q fuel σ input
         = Store.Success {| Store.parsed := Store.SRef p; Store.rest := Store.rest rres |}
                         (<[p := merged]> σ2)
       ∧ dom merged = dom held ∪ dom b
       ∧ (∀ k, merged !! k = match b !! k with Some v => Some v | None => held !! k end)
       ∧ (held = a →
          dom merged = dom a ∪ dom b ∧
          ∀ k, merged !! k = match b !! k with Some v => Some v | None => a !! k end)).
Proof.
  split; [|split].
  - unfold Store.bind. split.
    + destruct (P fuel σ input) as [lres σ1|σ1| |] eqn:HP; cbn;
        [|intros _; left; by exists σ1|by intros [? ?]..].
      destruct (Q fuel σ1 lres) as [rres σ2|σ2| |] eqn:HQ; cbn;
        [|intros _; right; by exists lres, σ1, σ2|by intros [? ?]..].
      destruct (Store.object_assign _ _ _) as [[merged σ3]|]; by intros [? ?].
    + intros [[σ' ->]|(lres & σ1 & σ' & -> & HQ)]; cbn; [by exists σ'|].
      rewrite HQ. cbn. by exists σ'.
  - intros out σ'. unfold Store.bind.
    destruct (P fuel σ input) as [lres σ1|σ1| |] eqn:HP; cbn; [|done..].
    destruct (Q fuel σ1 lres) as [rres σ2|σ2| |] eqn:HQ; cbn; [|done..].
    intros _. by exists lres, σ1, rres, σ2.
  - intros lres σ1 rres σ2 p q a held b HP HQ Hp Hq _ Hheld Hb Hplain.
    exists (b ∪ held). split; [|split; [|split]].
    + by apply (store_bind_success P Q fuel σ input lres σ1 rres σ2 p q).
    + apply store_union_dom.
    + apply store_union_lookup.
    + intros ->. split; [apply store_union_dom|apply store_union_lookup].
Qed.

Lemma bind_merges_in_place_witness :
  let P := Store.save (Store.string "Alice") "first" in
  let Q := Store.save (Store.string "Bob") "second" in
  let input := {| Store.parsed := Store.SUndef; Store.rest := "AliceBobPete" |} in
  let lres := {| Store.parsed := Store.SRef 0; Store.rest := "BobPete" |} in
  let rres := {| Store.parsed := Store.SRef 1; Store.rest := "Pete" |} in
  let a : gmap string Store.value := {[ "first" := Store.SStr "Alice" ]} in
  let b : gmap string Store.value := {[ "second" := Store.SStr "Bob" ]} in
  P 0 [] input = Store.Success lres [a] ∧ Q 0 [a] lres = Store.Success rres [a; b] ∧
  ∃ merged,
    Store.bind P Q 0 [] input
      = Store.Success {| Store.parsed := Store.SRef 0; Store.rest := "Pete" |}
                      [merged; b]
    ∧ merged !! "first" = Some (Store.SStr "Alice")
    ∧ merged !! "second" = Some (Store.SStr "Bob").
Proof.
  intros P Q input lres rres a b.
  assert (HP : P 0 [] input = Store.Success lres [a]) by reflexivity.
  assert (HQ : Q 0 [a] lres = Store.Success rres [a; b]) by reflexivity.
  split; [exact HP|]. split; [exact HQ|].
  destruct (proj2 (proj2 (bind_merges_in_place P Q 0 [] input)) lres [a] rres [a; b]
              0 1 a a b HP HQ eq_refl eq_refl eq_refl eq_refl eq_refl
              ltac:(reflexivity))
    as (merged & Hrun & _ & _ & Hlookup).
  exists merged. split; [exact Hrun|].
  split; rewrite (proj2 (Hlookup eq_refl)); reflexivity.
Defined.

(** C9: when the two mapping results share a key, the merged result of
    [bind], and of [bindInversed], carries the value of the right-hand
    parser [Q] under that key. *)
Theorem merge_prefers_right (P Q : Parser.ParseFunction) (fuel : nat)
    (input lres : Parser.Just) (a b : gmap string value) (k : string) (vp vq : value) :
  P fuel input = Parser.Success lres →
  Parser.parsed lres = VObj a →
  a !! k = Some vp → b !! k = Some vq →
  (∀ rres,
     Q fuel lres = Parser.Success rres → Parser.parsed rres = VObj b →
     ∃ merged,
       Parser.bind P Q fuel input
         = Parser.Success {| Parser.parsed := VObj merged;
                             Parser.rest := Parser.rest rres |}
       ∧ merged !! k = Some vq) ∧
  (∀ key text rres,
     Parser.inversed_rest key (VObj a) = Some text →
     Q fuel {| Parser.parsed := VUndef; Parser.rest := text |} = Parser.Success rres →
     Parser.parsed rres = VObj b →
     ∃ merged,
       Parser.bindInversed P Q key fuel input
         = Parser.Success {| Parser.parsed := VObj merged;
                             Parser.rest := Parser.rest lres |}
       ∧ merged !! k = Some vq).
Proof.
  intros HP Ha Hka Hkb. split.
  - intros rres HQ Hb. unfold Parser.bind. rewrite HP. cbn. rewrite HQ. cbn.
    rewrite Ha, Hb. cbn. exists (b ∪ a). split; [done|].
    by rewrite object_assign_lookup, Hkb.
  - intros key text rres Hrest HQ Hb. unfold Parser.bindInversed.
    rewrite HP. cbn. rewrite Ha, Hrest, HQ. cbn. rewrite Hb. cbn.
    exists (b ∪ a). split; [done|]. by rewrite object_assign_lookup, Hkb.
Qed.

Lemma merge_prefers_right_witness :
  let P := Parser.save (Parser.string "ab") "word" in
  let Q := Parser.save (Parser.item) "word" in
  let input := {| Parser.parsed := VUndef; Parser.rest := "abc" |} in
  (∃ merged,
     Parser.bind P Q 0 input
       = Parser.Success {| Parser.parsed := VObj merged; Parser.rest := "" |}
     ∧ merged !! "word" = Some (VStr "c")) ∧
  (∃ merged,
     Parser.bindInversed P Q (Some "word") 0 input
       = Parser.Success {| Parser.parsed := VObj merged; Parser.rest := "c" |}
     ∧ merged !! "word" = Some (VStr "a")).
Proof.
  intros P Q input.
  pose (lres := {| Parser.parsed := VObj {[ "word" := VStr "ab" ]}; Parser.rest := "c" |}).
  assert (HP : P 0 input = Parser.Success lres) by reflexivity.
  split.
  - apply (proj1 (merge_prefers_right P Q 0 input lres
                    {[ "word" := VStr "ab" ]} {[ "word" := VStr "c" ]} "word"
                    (VStr "ab") (VStr "c") HP eq_refl ltac:(reflexivity) ltac:(reflexivity))
             {| Parser.parsed := VObj {[ "word" := VStr "c" ]}; Parser.rest := "" |});
      reflexivity.
  - apply (proj2 (merge_prefers_right P Q 0 input lres
                    {[ "word" := VStr "ab" ]} {[ "word" := VStr "a" ]} "word"
                    (VStr "ab") (VStr "a") HP eq_refl ltac:(reflexivity) ltac:(reflexivity))
             (Some "word") "ab"
             {| Parser.parsed := VObj {[ "word" := VStr "a" ]}; Parser.rest := "b" |});
      reflexivity.
Defined.

(** ** Fuel *)

Lemma returns_mono P input out f :
  fuel_mono P → P f input = out → out ≠ Parser.Timeout →
  ∀ f', f ≤ f' → P f' input = out.
Proof. intros HP <- Hout f' Hf. by apply HP. Qed.

Lemma returns_functional P input out out' :
  fuel_mono P → returns P input out → returns P input out' → out = out'.
Proof.
  intros HP [Hout [f Hf]] [Hout' [f' Hf']].
  rewrite <- (returns_mono P input out f HP Hf Hout (f `max` f')) by lia.
  by rewrite <- (returns_mono P input out' f' HP Hf' Hout' (f `max` f')) by lia.
Qed.

(** ** [many]: bounded repetition *)

Section many_facts.
Variables (this : Parser.ParseFunction) (min max : nat)
          (condition : option Parser.Predicate) (input : Parser.Just).

Lemma many_loop_unfold fuel text elements iterations :
  Parser.many_loop this min max condition input fuel text elements iterations =
    if Parser.goOn max condition text iterations then
      match fuel with
      | O => Parser.Timeout
      | S fuel' =>
          match this fuel' {| Parser.parsed := Parser.parsed input; Parser.rest := text |} with
          | Parser.Success result =>
              Parser.many_loop this min max condition input fuel' (Parser.rest result)
                (elements ++ [Parser.parsed result]) (S iterations)
          | Parser.Failure => Parser.many_return min max text elements iterations
          | Parser.Timeout => Parser.Timeout
          | Parser.Illtyped => Parser.Illtyped
          end
      end
    else Parser.many_return min max text elements iterations.
Proof. by destruct fuel. Qed.

Lemma overflow_spec iterations :
  Parser.overflow max iterations = true ↔ max ≠ 0 ∧ max < iterations.
Proof.
  unfold Parser.overflow. destruct max as [|m].
  - split; [done|by intros [? _]].
  - rewrite Nat.ltb_lt. split; [by split|by intros [_ ?]].
Qed.

Lemma underflow_spec iterations :
  Parser.underflow min iterations = true ↔ min ≠ 0 ∧ iterations < min.
Proof.
  unfold Parser.underflow. destruct min as [|m].
  - split; [done|by intros [? _]].
  - rewrite Nat.ltb_lt. split; [by split|by intros [_ ?]].
Qed.

Lemma many_return_success text elements iterations out :
  Parser.many_return min max text elements iterations = Parser.Success out →
  out = {| Parser.parsed := VArr elements; Parser.rest := text |} ∧
  (min ≠ 0 → min ≤ iterations) ∧ (max ≠ 0 → iterations ≤ max).
Proof.
  unfold Parser.many_return.
  destruct (Parser.overflow max iterations) eqn:Ho; [done|].
  destruct (Parser.underflow min iterations) eqn:Hu; [done|].
  intros [= <-]. split; [done|]. split; intros Hne.
  - destruct (Nat.le_gt_cases min iterations) as [|Hlt]; [done|].
    assert (Parser.underflow min iterations = true) by (by apply underflow_spec).
    congruence.
  - destruct (Nat.le_gt_cases iterations max) as [|Hlt]; [done|].
    assert (Parser.overflow max iterations = true) by (by apply overflow_spec).
    congruence.
Qed.

(** The loop keeps [iterations] equal to the number of elements. *)
Lemma many_loop_success fuel text elements iterations out :
  Parser.many_loop this min max condition input fuel text elements iterations
    = Parser.Success out →
  ∃ vs r k,
    out = {| Parser.parsed := VArr (elements ++ vs); Parser.rest := r |} ∧
    length vs = k ∧
    (min ≠ 0 → min ≤ iterations + k) ∧ (max ≠ 0 → iterations + k ≤ max).
Proof.
  revert text elements iterations.
  induction fuel as [|fuel IH]; intros text elements iterations;
    rewrite many_loop_unfold;
    destruct (Parser.goOn max condition text iterations).
  - done.
  - intros (-> & ? & ?)%many_return_success.
    exists [], text, 0. rewrite app_nil_r, Nat.add_0_r. done.
  - destruct (this fuel _) as [result| | |]; [|
      intros (-> & ? & ?)%many_return_success;
      exists [], text, 0; by rewrite app_nil_r, Nat.add_0_r |done|done].
    intros (vs & r & k & -> & Hk & Hmin & Hmax)%IH.
    exists (Parser.parsed result :: vs), r, (S k).
    rewrite <- app_assoc. simpl. rewrite Hk.
    replace (iterations + S k) with (S iterations + k) by lia. done.
  - intros (-> & ? & ?)%many_return_success.
    exists [], text, 0. rewrite app_nil_r, Nat.add_0_r. done.
Qed.

End many_facts.

Lemma iterates_length P pv n text vs r : iterates P pv n text vs r → length vs = n.
Proof. induction 1; simpl; auto. Qed.

Lemma iterates_prefix P pv n text vs r j :
  iterates P pv n text vs r → j ≤ n → ∃ vs' r', iterates P pv j text vs' r'.
Proof.
  intros Hit. revert j. induction Hit as [text|n text v r vs r' Hne HP Hit IH]; intros j Hj.
  - replace j with 0 by lia. eexists _, _. constructor.
  - destruct j as [|j]; [eexists _, _; constructor|].
    destruct (IH j) as (vs' & r'' & Hit'); [lia|].
    eexists _, _. by econstructor.
Qed.

Section many_unconditional.
Variables (P : Parser.ParseFunction) (min max : nat) (input : Parser.Just).
Hypothesis P_mono : fuel_mono P.

Let pv := Parser.parsed input.
Let loop := Parser.many_loop P min max None input.

Lemma goOn_None text iterations :
  Parser.goOn max None text iterations = truthy text && negb (Parser.overflow max iterations).
Proof. reflexivity. Qed.

Lemma many_loop_iterates k text vs r :
  iterates P pv k text vs r →
  ∃ f0, ∀ F elements iterations,
    f0 ≤ F → (max ≠ 0 → iterations + k ≤ S max) →
    loop (k + F) text elements iterations = loop F r (elements ++ vs) (iterations + k).
Proof.
  induction 1 as [text|n text v r vs r' Hne [_ [f1 HP]] Hit [f0 IH]].
  - exists 0. intros F elements iterations _ _.
    by rewrite app_nil_r, Nat.add_0_r.
  - exists (f1 `max` f0). intros F elements iterations HF Hmax.
    unfold loop. cbn [plus]. rewrite many_loop_unfold, goOn_None.
    apply truthy_spec in Hne as ->.
    destruct (Parser.overflow max iterations) eqn:Ho.
    { apply overflow_spec in Ho as [? ?]. lia. }
    cbn [andb negb].
    rewrite (returns_mono P _ _ f1 P_mono HP) by (done || lia).
    cbn [Parser.rest Parser.parsed]. fold loop.
    rewrite IH by lia. rewrite <- app_assoc. f_equal. lia.
Qed.

Lemma many_loop_inv fuel text elements iterations out :
  loop fuel text elements iterations = out →
  out ≠ Parser.Timeout → out ≠ Parser.Illtyped →
  ∃ k vs r,
    iterates P pv k text vs r ∧
    out = Parser.many_return min max r (elements ++ vs) (iterations + k) ∧
    (halts P pv r ∨ Parser.overflow max (iterations + k) = true).
Proof.
  revert text elements iterations out.
  induction fuel as [|fuel IH]; intros text elements iterations out <-;
    unfold loop; rewrite many_loop_unfold, goOn_None.
  - destruct text as [|c text]; cbn [truthy andb].
    + intros _ _. exists 0, [], "". rewrite app_nil_r, Nat.add_0_r.
      split; [constructor|]. split; [done|]. left. by left.
    + destruct (Parser.overflow max iterations) eqn:Ho; cbn [negb]; [|done].
      intros _ _. exists 0, [], (String c text). rewrite app_nil_r, Nat.add_0_r.
      split; [constructor|]. split; [done|]. by right.
  - destruct text as [|c text]; cbn [truthy andb].
    { intros _ _. exists 0, [], "". rewrite app_nil_r, Nat.add_0_r.
      split; [constructor|]. split; [done|]. left. by left. }
    destruct (Parser.overflow max iterations) eqn:Ho; cbn [negb].
    { intros _ _. exists 0, [], (String c text). rewrite app_nil_r, Nat.add_0_r.
      split; [constructor|]. split; [done|]. by right. }
    destruct (P fuel _) as [[v r]| | |] eqn:HP; [| |done|done].
    + cbn [Parser.rest Parser.parsed]. fold loop. intros Hto Hill.
      destruct (IH r (elements ++ [v]) (S iterations) _ eq_refl Hto Hill)
        as (k & vs & r' & Hit & Hout & Hstop).
      exists (S k), (v :: vs), r'. split.
      * econstructor; [done| |exact Hit]. split; [done|]. by exists fuel.
      * rewrite <- app_assoc in Hout.
        replace (iterations + S k) with (S iterations + k) by lia. done.
    + intros _ _. exists 0, [], (String c text). rewrite app_nil_r, Nat.add_0_r.
      split; [constructor|]. split; [done|]. left. right. split; [done|]. by exists fuel.
Qed.

Lemma many_overshoot vs r :
  max ≠ 0 → iterates P pv (S max) (Parser.rest input) vs r →
  returns (Parser.many P min max None) input Parser.Failure.
Proof.
  intros Hmax Hit. destruct (many_loop_iterates _ _ _ _ Hit) as [f0 Hloop].
  split; [done|]. exists (S max + f0). unfold Parser.many. fold loop.
  rewrite Hloop by lia. unfold loop. rewrite many_loop_unfold, goOn_None.
  assert (Parser.overflow max (0 + S max) = true) as Ho by (apply overflow_spec; lia).
  rewrite Ho, andb_false_r. unfold Parser.many_return. by rewrite Ho.
Qed.

Lemma many_within_bounds k vs r :
  iterates P pv k (Parser.rest input) vs r → halts P pv r →
  (min ≠ 0 → min ≤ k) → (max ≠ 0 → k ≤ max) →
  returns (Parser.many P min max None) input
    (Parser.Success {| Parser.parsed := VArr vs; Parser.rest := r |}).
Proof.
  intros Hit Hhalt Hmin Hmax. destruct (many_loop_iterates _ _ _ _ Hit) as [f0 Hloop].
  assert (Hret : Parser.many_return min max r vs k
                 = Parser.Success {| Parser.parsed := VArr vs; Parser.rest := r |}).
  { unfold Parser.many_return.
    destruct (Parser.overflow max k) eqn:Ho.
    { apply overflow_spec in Ho as [? ?]. specialize (Hmax ltac:(done)). lia. }
    destruct (Parser.underflow min k) eqn:Hu; [|done].
    apply underflow_spec in Hu as [? ?]. specialize (Hmin ltac:(done)). lia. }
  split; [done|]. destruct Hhalt as [->|[_ [f1 Hfail]]].
  - exists (k + f0). unfold Parser.many. fold loop.
    rewrite Hloop by (try intros Hm; try specialize (Hmax Hm); lia).
    unfold loop. by rewrite many_loop_unfold, goOn_None.
  - exists (k + (S f1 `max` f0)). unfold Parser.many. fold loop.
    rewrite Hloop by (try intros Hm; try specialize (Hmax Hm); lia).
    destruct (S f1 `max` f0) as [|F] eqn:HF; [lia|].
    unfold loop. rewrite many_loop_unfold.
    destruct (Parser.goOn max None r (0 + k)); [|done].
    by rewrite (returns_mono P _ _ f1 P_mono Hfail) by (done || lia).
Qed.

Lemma many_underflow k vs r :
  iterates P pv k (Parser.rest input) vs r → halts P pv r →
  k < min → (max ≠ 0 → k ≤ max) →
  returns (Parser.many P min max None) input Parser.Failure.
Proof.
  intros Hit Hhalt Hmin Hmax. destruct (many_loop_iterates _ _ _ _ Hit) as [f0 Hloop].
  assert (Hret : Parser.many_return min max r vs k = Parser.Failure).
  { unfold Parser.many_return.
    assert (Parser.underflow min k = true) as -> by (apply underflow_spec; lia).
    by rewrite orb_true_r. }
  split; [done|]. destruct Hhalt as [->|[_ [f1 Hfail]]].
  - exists (k + f0). unfold Parser.many. fold loop.
    rewrite Hloop by (try intros Hm; try specialize (Hmax Hm); lia).
    unfold loop. by rewrite many_loop_unfold, goOn_None.
  - exists (k + (S f1 `max` f0)). unfold Parser.many. fold loop.
    rewrite Hloop by (try intros Hm; try specialize (Hmax Hm); lia).
    destruct (S f1 `max` f0) as [|F] eqn:HF; [lia|].
    unfold loop. rewrite many_loop_unfold.
    destruct (Parser.goOn max None r (0 + k)); [|done].
    by rewrite (returns_mono P _ _ f1 P_mono Hfail) by (done || lia).
Qed.

End many_unconditional.

(** A parse function that ignores its fuel is trivially monotone; this
    covers every primitive constructor. *)
Lemma fuel_mono_fuel_free (P : Parser.ParseFunction) :
  (∀ f f' input, P f input = P f' input) → fuel_mono P.
Proof. intros HP f f' input _ _. apply HP. Qed.

(** C2, as stated, fails when the input admits more successes than
    [max]: the loop guard is [iterations > max], so the loop runs one
    iteration past [max], and the [return] then rejects the overflow.
    With [min = max = 1] and the element parser [char('a')], the input
    ["aa"] admits one successful iteration ending at ["a"], and two
    successes are no fewer than [min]; yet [many] does not return
    [["a"]] with remainder ["a"]: it fails. *)
Lemma many_overshoot_counterexample :
  let P := Parser.char "a" in
  iterates P VUndef 1 "aa" [VStr "a"] "a" ∧
  iterates P VUndef 2 "aa" [VStr "a"; VStr "a"] "" ∧
  (∀ fuel, Parser.parseText (Parser.many P 1 1 None) fuel "aa"
           ≠ Parser.Success {| Parser.parsed := VArr [VStr "a"]; Parser.rest := "a" |}) ∧
  Parser.parseText (Parser.many P 1 1 None) 2 "aa" = Parser.Failure.
Proof.
  intros P.
  assert (Hstep : ∀ text, returns P {| Parser.parsed := VUndef; Parser.rest := String "a" text |}
            (Parser.Success {| Parser.parsed := VStr "a"; Parser.rest := text |})).
  { intros text. split; [done|]. by exists 0. }
  split; [|split; [|split]].
  - econstructor; [done|apply Hstep|constructor].
  - econstructor; [done|apply Hstep|].
    econstructor; [done|apply Hstep|constructor].
  - intros [|[|[|fuel]]]; vm_compute; discriminate.
  - reflexivity.
Qed.

(** C2 (amended): for every parser [P] and non-zero [min <= max],
    [many(P, min, max)] iterates while the count is at most [max].
    - On an input that admits [max + 1] successful iterations it
      performs them and fails.
    - On an input where exactly [k] iterations succeed before the loop
      stops (the remainder is empty or [P] fails), with
      [min <= k <= max], it succeeds and returns the [k] values in
      order together with the remainder after them.
    - Whenever it succeeds, the length of its sequence lies within
      [[min, max]].
    - It fails exactly when fewer than [min] iterations succeed before
      the loop stops, or more than [max] iterations succeed. *)
Theorem many_bounds (P : Parser.ParseFunction) (min max : nat) (input : Parser.Just) :
  fuel_mono P → min ≠ 0 → max ≠ 0 → min ≤ max →
  let pv := Parser.parsed input in
  let text := Parser.rest input in
  let M := Parser.many P min max None in
  (∀ vs r, iterates P pv (S max) text vs r → returns M input Parser.Failure) ∧
  (∀ k vs r, iterates P pv k text vs r → halts P pv r → min ≤ k ≤ max →
     returns M input (Parser.Success {| Parser.parsed := VArr vs; Parser.rest := r |})) ∧
  (∀ fuel out, M fuel input = Parser.Success out →
     ∃ vs, Parser.parsed out = VArr vs ∧ min ≤ length vs ≤ max) ∧
  (returns M input Parser.Failure ↔
     ∃ k vs r, iterates P pv k text vs r ∧ ((halts P pv r ∧ k < min) ∨ max < k)).
Proof.
  intros HP Hmin Hmax Hle pv text M. split; [|split; [|split]].
  - intros vs r. by apply many_overshoot.
  - intros k vs r Hit Hhalt [? ?].
    by apply (many_within_bounds P min max input HP k vs r).
  - intros fuel out Hrun. unfold M, Parser.many in Hrun.
    apply many_loop_success in Hrun as (vs & r & k & -> & Hk & Hlo & Hhi).
    exists vs. split; [done|]. specialize (Hlo Hmin). specialize (Hhi Hmax). lia.
  - split.
    + intros [_ [fuel Hrun]]. unfold M, Parser.many in Hrun.
      apply many_loop_inv in Hrun as (k & vs & r & Hit & Hret & Hstop); [|done..].
      exists k, vs, r. split; [done|]. cbn [plus] in *.
      unfold Parser.many_return in Hret.
      destruct (Parser.overflow max k) eqn:Ho.
      { apply overflow_spec in Ho as [_ ?]. by right. }
      destruct (Parser.underflow min k) eqn:Hu; [|done].
      apply underflow_spec in Hu as [_ ?].
      destruct Hstop as [Hhalt|?]; [by left|done].
    + intros (k & vs & r & Hit & [[Hhalt Hk]|Hk]).
      * apply (many_underflow P min max input HP k vs r); [done|done|done|lia].
      * destruct (iterates_prefix P pv k text vs r (S max) Hit) as (vs' & r' & Hit'); [lia|].
        by apply (many_overshoot P min max input HP vs' r').
Qed.

Lemma many_bounds_witness :
  let P := Parser.string "sah" in
  let input := {| Parser.parsed := VUndef; Parser.rest := "sahsahsah-boo" |} in
  fuel_mono P ∧ 2 ≠ 0 ∧ 3 ≠ 0 ∧ 2 ≤ 3 ∧
  iterates P VUndef 3 "sahsahsah-boo" [VStr "sah"; VStr "sah"; VStr "sah"] "-boo" ∧
  halts P VUndef "-boo" ∧
  returns (Parser.many P 2 3 None) input
    (Parser.Success {| Parser.parsed := VArr [VStr "sah"; VStr "sah"; VStr "sah"];
                       Parser.rest := "-boo" |}).
Proof.
  intros P input.
  assert (Hmono : fuel_mono P) by (by apply fuel_mono_fuel_free).
  assert (Hit : iterates P VUndef 3 "sahsahsah-boo"
                  [VStr "sah"; VStr "sah"; VStr "sah"] "-boo").
  { apply (iterates_S P VUndef 2 "sahsahsah-boo" (VStr "sah") "sahsah-boo");
      [discriminate|split; [discriminate|by exists 0]|].
    apply (iterates_S P VUndef 1 "sahsah-boo" (VStr "sah") "sah-boo");
      [discriminate|split; [discriminate|by exists 0]|].
    apply (iterates_S P VUndef 0 "sah-boo" (VStr "sah") "-boo");
      [discriminate|split; [discriminate|by exists 0]|].
    apply iterates_O. }
  assert (Hhalt : halts P VUndef "-boo").
  { right. split; [discriminate|by exists 0]. }
  split; [exact Hmono|]. split; [lia|]. split; [lia|]. split; [lia|].
  split; [exact Hit|]. split; [exact Hhalt|].
  apply (proj1 (proj2 (many_bounds P 2 3 input Hmono ltac:(lia) ltac:(lia) ltac:(lia)))
           3 _ _ Hit Hhalt ltac:(lia)).
Defined.

(** ** [Parser.quoted]: text between two delimiters *)

Section more_string_facts.
Implicit Types (s t p x y : string).

Lemma slice_from_append i x y :
  i ≤ String.length x → slice_from i (x +:+ y) = slice_from i x +:+ y.
Proof.
  revert x. induction i as [|i IH]; intros x Hi.
  - by rewrite !slice_from_0.
  - destruct x as [|c x]; simpl in Hi; [lia|].
    rewrite append_cons. simpl. apply IH. lia.
Qed.

Lemma slice_from_succ i c x : slice_from (S i) (String c x) = slice_from i x.
Proof. reflexivity. Qed.

Lemma startsWith_append_long x y p :
  String.length p ≤ String.length x → startsWith (x +:+ y) p = startsWith x p.
Proof.
  revert x. induction p as [|c p IH]; intros x Hlen.
  - by rewrite !startsWith_empty.
  - destruct x as [|c' x]; simpl in Hlen; [lia|].
    rewrite append_cons, !startsWith_cons, IH by lia. done.
Qed.

Lemma join_chars_of t : join (chars_of t) = t.
Proof. induction t as [|c t IH]; [done|]. simpl. by rewrite IH. Qed.
End more_string_facts.

Section quoted_facts.
Variables (quote after : string).
Hypothesis quote_nonempty : quote ≠ "".

Let gate : Parser.Predicate := fun text => negb (startsWith text quote).
Let loop := Parser.many_loop Parser.item 0 0 (Some gate).

Lemma untilQuote_loop t input fuel elements iterations :
  (∀ i, i < String.length t → occurs_at quote (t +:+ quote) i = false) →
  String.length t ≤ fuel →
  loop input fuel (t +:+ quote +:+ after) elements iterations
  = Parser.Success {| Parser.parsed := VArr (elements ++ chars_of t);
                      Parser.rest := quote +:+ after |}.
Proof.
  revert fuel elements iterations.
  induction t as [|c t IH]; intros fuel elements iterations Hfree Hfuel;
    unfold loop; rewrite many_loop_unfold; unfold Parser.goOn.
  - rewrite append_empty_l. unfold gate. rewrite startsWith_append.
    rewrite andb_false_r. cbn [andb]. by rewrite app_nil_r.
  - assert (Hgate : gate (String c t +:+ quote +:+ after) = true).
    { unfold gate. rewrite <- append_assoc, startsWith_append_long.
      - specialize (Hfree 0 ltac:(simpl; lia)). unfold occurs_at in Hfree.
        rewrite slice_from_0 in Hfree. by rewrite Hfree.
      - rewrite length_append. lia. }
    rewrite Hgate. rewrite append_cons. cbn [truthy andb Parser.overflow negb].
    destruct fuel as [|fuel]; [simpl in Hfuel; lia|].
    cbn [Parser.item Parser.rest Parser.parsed]. fold loop.
    rewrite IH.
    + by rewrite <- app_assoc.
    + intros i Hi. apply (Hfree (S i)). simpl. lia.
    + simpl in Hfuel. lia.
Qed.

Lemma quoted_run t fuel :
  (∀ i, i < String.length t → occurs_at quote (t +:+ quote) i = false) →
  String.length t ≤ fuel →
  Parser.parseText (Parser.quoted quote) fuel (quote +:+ t +:+ quote +:+ after)
  = Parser.Success {| Parser.parsed := VStr t; Parser.rest := after |}.
Proof.
  intros Hfree Hfuel.
  assert (Htruthy : ∀ s, truthy (quote +:+ s) = true).
  { intros s. apply truthy_spec. destruct quote; [done|]. by rewrite append_cons. }
  unfold Parser.parseText, Parser.quoted, Parser.pass, Parser.seq, Parser.fmap.
  unfold Parser.string at 1. cbn [Parser.rest].
  rewrite Htruthy, startsWith_append, slice_from_length_append.
  cbn [andb Parser.on_success]. unfold Parser.many. cbn [Parser.rest].
  fold gate. fold loop. rewrite untilQuote_loop by done.
  cbn [Parser.on_success Parser.parsed Parser.rest app Parser.join_mapper].
  unfold Parser.string. cbn [Parser.rest].
  rewrite Htruthy, startsWith_append, slice_from_length_append.
  cbn [andb Parser.on_success Parser.parsed Parser.rest].
  by rewrite join_chars_of.
Qed.
End quoted_facts.

(** C5, as stated, fails for a delimiter of several characters: the
    closing delimiter is recognised at the first position where the
    remainder starts with it, and that position may lie inside [t + q]
    although [t] itself contains no [q].  With [q = "aa"] and
    [t = "a"] the span closes at once and the value is the empty
    text. *)
Lemma quoted_overlap_counterexample :
  ¬ contains "aa" "a" ∧
  ∀ fuel, Parser.parseText (Parser.quoted "aa") fuel ("aa" +:+ "a" +:+ "aa")
          = Parser.Success {| Parser.parsed := VStr ""; Parser.rest := "a" |}.
Proof.
  split.
  - intros (before & after & Heq). apply (f_equal String.length) in Heq.
    rewrite !length_append in Heq. simpl in Heq. lia.
  - intros [|fuel]; reflexivity.
Qed.

(** C5 (amended): for every non-empty delimiter [q] and every text [t]
    such that [q] occurs nowhere in [t + q] before the position
    [length t] (neither inside [t] nor across the end of [t] and the
    closing delimiter), [quoted(q)] applied to [q + t + q], followed by
    any further text, succeeds with the value [t] and the remainder
    that follows the closing delimiter; fuel [length t] is enough. *)
Theorem quoted_round_trip (q t after : string) (fuel : nat) :
  q ≠ "" →
  (∀ i, i < String.length t → occurs_at q (t +:+ q) i = false) →
  String.length t ≤ fuel →
  Parser.parseText (Parser.quoted q) fuel (q +:+ t +:+ q +:+ after)
    = Parser.Success {| Parser.parsed := VStr t; Parser.rest := after |}
  ∧ Parser.parseText (Parser.quoted q) fuel (q +:+ t +:+ q)
    = Parser.Success {| Parser.parsed := VStr t; Parser.rest := "" |}.
Proof.
  intros Hq Hfree Hfuel. split.
  - by apply quoted_run.
  - rewrite <- (append_empty_r q) at 3. by apply quoted_run.
Qed.

Lemma quoted_round_trip_witness :
  "ox" ≠ "" ∧
  (∀ i, i < String.length " gor" → occurs_at "ox" (" gor" +:+ "ox") i = false) ∧
  String.length " gor" ≤ 4 ∧
  Parser.parseText (Parser.quoted "ox") 4 ("ox" +:+ " gor" +:+ "ox" +:+ "!")
    = Parser.Success {| Parser.parsed := VStr " gor"; Parser.rest := "!" |}.
Proof.
  assert (Hfree : ∀ i, i < String.length " gor" → occurs_at "ox" (" gor" +:+ "ox") i = false).
  { intros i Hi. simpl in Hi.
    destruct i as [|[|[|[|i]]]]; [reflexivity..|lia]. }
  split; [discriminate|]. split; [exact Hfree|]. split; [simpl; lia|].
  apply (proj1 (quoted_round_trip "ox" " gor" "!" 4 ltac:(discriminate) Hfree
                  ltac:(simpl; lia))).
Defined.

(** For a delimiter of one character, "[q] occurs nowhere in [t + q]
    before the position [length t]" says no more than that [t] does
    not contain the delimiter. *)
Lemma single_char_delimiter (c : ascii) (t : string) :
  ¬ contains (unit_string c) t →
  ∀ i, i < String.length t → occurs_at (unit_string c) (t +:+ unit_string c) i = false.
Proof.
  induction t as [|c' t IH]; intros Hfree i Hi; simpl in Hi; [lia|].
  assert (Hne : c ≠ c').
  { intros ->. apply Hfree. by exists "", t. }
  destruct i as [|i].
  - unfold occurs_at. rewrite slice_from_0, append_cons. unfold unit_string.
    rewrite startsWith_cons. by rewrite bool_decide_eq_false_2.
  - unfold occurs_at. rewrite append_cons, slice_from_succ. apply IH; [|lia].
    intros (before & after & ->). apply Hfree. by exists (String c' before), after.
Qed.

(** ** [Parser.repeat]: elements interleaved with text *)

Lemma join_strings_units pending : join_strings (units pending) = pending.
Proof. induction pending as [|c p IH]; [done|]. simpl. by rewrite IH. Qed.

Lemma units_snoc pending c : units (pending +:+ unit_string c) = units pending ++ [unit_string c].
Proof. induction pending as [|c' p IH]; [done|]. rewrite append_cons. simpl. by rewrite IH. Qed.

Lemma makeText_units fromText pending elements :
  Parser.makeText fromText (units pending) elements = flush fromText pending elements.
Proof.
  destruct pending as [|c p]; [done|].
  unfold flush. cbn [String.eqb].
  change (Parser.makeText fromText (units (String c p)) elements)
    with (elements ++ [fromText (join_strings (units (String c p)))]).
  by rewrite join_strings_units.
Qed.

Section repeat_facts.
Variables (E : Parser.ParseFunction) (f : string → value) (cond : Parser.Predicate).

Lemma repeat_loop_unfold fuel text chars elements :
  Parser.repeat_loop E f cond fuel text chars elements =
    match text with
    | String c tail =>
        if cond text then
          match fuel with
          | O => Parser.Timeout
          | S fuel' =>
              match E fuel' {| Parser.parsed := VObj ∅; Parser.rest := text |} with
              | Parser.Success result =>
                  Parser.repeat_loop E f cond fuel' (Parser.rest result) []
                    (Parser.makeText f chars elements ++ [Parser.parsed result])
              | Parser.Failure =>
                  Parser.repeat_loop E f cond fuel' tail (chars ++ [unit_string c]) elements
              | Parser.Timeout => Parser.Timeout
              | Parser.Illtyped => Parser.Illtyped
              end
          end
        else Parser.repeat_return f text chars elements
    | EmptyString => Parser.repeat_return f text chars elements
    end.
Proof. by destruct fuel. Qed.

Lemma repeat_return_units text pending elements :
  Parser.repeat_return f text (units pending) elements
  = interleave_outcome (flush f pending elements) text.
Proof.
  unfold Parser.repeat_return. rewrite makeText_units.
  by destruct (flush f pending elements).
Qed.

Lemma repeat_loop_complete text pending sequence out rest :
  fuel_mono E →
  interleave E f cond text pending sequence out rest →
  ∃ f0, ∀ F, f0 ≤ F →
    Parser.repeat_loop E f cond F text (units pending) sequence
    = interleave_outcome out rest.
Proof.
  intros HE.
  induction 1 as [text pending sequence Hstop
                 |text pending sequence v r out rest Hne Hcond [_ [f1 HP]] _ [f0 IH]
                 |c text pending sequence out rest Hcond [_ [f1 HP]] _ [f0 IH]].
  - exists 0. intros F _. rewrite repeat_loop_unfold, repeat_return_units.
    destruct Hstop as [->|Hfalse]; [done|].
    rewrite Hfalse. by destruct text.
  - exists (S (f1 `max` f0)). intros [|F] HF; [lia|].
    rewrite repeat_loop_unfold. destruct text as [|c tail]; [done|].
    rewrite Hcond, (returns_mono E _ _ f1 HE HP) by (done || lia).
    cbn [Parser.rest Parser.parsed]. rewrite makeText_units.
    apply (IH F). lia.
  - exists (S (f1 `max` f0)). intros [|F] HF; [lia|].
    rewrite repeat_loop_unfold, Hcond.
    rewrite (returns_mono E _ _ f1 HE HP) by (done || lia).
    rewrite <- units_snoc. apply (IH F). lia.
Qed.

Lemma repeat_loop_sound fuel text pending sequence result :
  Parser.repeat_loop E f cond fuel text (units pending) sequence = result →
  result ≠ Parser.Timeout → result ≠ Parser.Illtyped →
  ∃ out rest,
    interleave E f cond text pending sequence out rest ∧
    result = interleave_outcome out rest.
Proof.
  revert text pending sequence result.
  induction fuel as [|fuel IH]; intros text pending sequence result <-;
    rewrite repeat_loop_unfold.
  - destruct text as [|c tail].
    + intros _ _. eexists _, _. split; [apply interleave_stop; by left|].
      apply repeat_return_units.
    + destruct (cond (String c tail)) eqn:Hcond; [done|].
      intros _ _. eexists _, _. split; [apply interleave_stop; by right|].
      apply repeat_return_units.
  - destruct text as [|c tail].
    { intros _ _. eexists _, _. split; [apply interleave_stop; by left|].
      apply repeat_return_units. }
    destruct (cond (String c tail)) eqn:Hcond.
    2:{ intros _ _. eexists _, _. split; [apply interleave_stop; by right|].
        apply repeat_return_units. }
    destruct (E fuel _) as [[v r]| | |] eqn:HE; [| |done|done].
    + cbn [Parser.rest Parser.parsed]. rewrite makeText_units. intros Hto Hill.
      destruct (IH r "" (flush f pending sequence ++ [v]) _ eq_refl Hto Hill)
        as (out & rest & Hscan & Hout).
      exists out, rest. split; [|done].
      eapply interleave_element; [done|done| |exact Hscan].
      split; [done|]. by exists fuel.
    + rewrite <- units_snoc. intros Hto Hill.
      destruct (IH tail (pending +:+ unit_string c) sequence _ eq_refl Hto Hill)
        as (out & rest & Hscan & Hout).
      exists out, rest. split; [|done].
      eapply interleave_char; [done| |exact Hscan].
      split; [done|]. by exists fuel.
Qed.

(** The produced sequence is empty only if the loop body never ran. *)
Lemma interleave_empty text pending sequence out rest :
  interleave E f cond text pending sequence out rest →
  out = [] → pending = "" ∧ sequence = [] ∧ (text = "" ∨ cond text = false).
Proof.
  induction 1 as [text pending sequence Hstop
                 |text pending sequence v r out rest Hne Hcond HP _ IH
                 |c text pending sequence out rest Hcond HP _ IH]; intros Hout.
  - unfold flush in Hout. destruct pending as [|c p]; cbn [String.eqb] in Hout.
    + done.
    + by destruct sequence.
  - destruct (IH Hout) as (_ & Hseq & _). by destruct (flush f pending sequence).
  - destruct (IH Hout) as (Hp & _ & _). destruct pending; by rewrite ?append_cons in Hp.
Qed.
End repeat_facts.

(** C3: [Parser.repeat(E, f, cond)] is the interleave scanner of the
    specification.  Started with no pending text and no entries, it
    loops while [cond] holds on a non-empty remainder; on [E]'s success
    it flushes the pending raw characters through [f] as one entry,
    appends [E]'s value and goes on at [E]'s remainder; on [E]'s
    failure it moves exactly one character to the pending text; after
    the loop it flushes what is pending.  It returns [Failure] exactly
    when the produced sequence is empty, and otherwise the sequence and
    the final remainder.  Every scan of the specification is what the
    code returns given enough fuel, and every result of the code is
    such a scan. *)
Theorem repeat_interleaves (E : Parser.ParseFunction) (f : string → value)
    (cond : Parser.Predicate) (input : Parser.Just) :
  fuel_mono E →
  (∀ out rest,
     interleave E f cond (Parser.rest input) "" [] out rest →
     returns (Parser.repeat E f cond) input (interleave_outcome out rest)) ∧
  (∀ result,
     returns (Parser.repeat E f cond) input result → result ≠ Parser.Illtyped →
     ∃ out rest,
       interleave E f cond (Parser.rest input) "" [] out rest ∧
       result = interleave_outcome out rest) ∧
  (∀ out rest,
     (interleave_outcome out rest = Parser.Failure ↔ out = []) ∧
     (out ≠ [] → interleave_outcome out rest
                 = Parser.Success {| Parser.parsed := VArr out; Parser.rest := rest |})).
Proof.
  intros HE. split; [|split].
  - intros out rest Hscan.
    destruct (repeat_loop_complete E f cond _ _ _ _ _ HE Hscan) as [f0 Hrun].
    split; [by destruct out|]. exists f0. by apply Hrun.
  - intros result [Hto [fuel Hrun]] Hill.
    by apply (repeat_loop_sound E f cond fuel (Parser.rest input) "" []).
  - intros out rest. by destruct out.
Qed.

Lemma repeat_interleaves_witness :
  let E := Parser.char "2" in
  let f : string → value := VStr in
  let cond : Parser.Predicate := fun text => negb (startsWith text "!") in
  let input := {| Parser.parsed := VUndef; Parser.rest := "a2b!" |} in
  fuel_mono E ∧
  interleave E f cond "a2b!" "" [] [VStr "a"; VStr "2"; VStr "b"] "!" ∧
  returns (Parser.repeat E f cond) input
    (Parser.Success {| Parser.parsed := VArr [VStr "a"; VStr "2"; VStr "b"];
                       Parser.rest := "!" |}).
Proof.
  intros E f cond input.
  assert (Hmono : fuel_mono E) by (by apply fuel_mono_fuel_free).
  assert (Hscan : interleave E f cond "a2b!" "" [] [VStr "a"; VStr "2"; VStr "b"] "!").
  { apply (interleave_char E f cond "a" "2b!" "" []);
      [reflexivity|split; [discriminate|by exists 0]|].
    apply (interleave_element E f cond "2b!" "a" [] (VStr "2") "b!");
      [discriminate|reflexivity|split; [discriminate|by exists 0]|].
    apply (interleave_char E f cond "b" "!" "" [VStr "a"; VStr "2"]);
      [reflexivity|split; [discriminate|by exists 0]|].
    apply (interleave_stop E f cond "!" "b" [VStr "a"; VStr "2"]). by right. }
  split; [exact Hmono|]. split; [exact Hscan|].
  apply (proj1 (repeat_interleaves E f cond input Hmono) _ _ Hscan).
Defined.

(** The scanner fails exactly when its loop body never runs: the
    remainder is empty or the condition is false at the start. *)
Lemma repeat_fails_iff (E : Parser.ParseFunction) (f : string → value)
    (cond : Parser.Predicate) (input : Parser.Just) :
  returns (Parser.repeat E f cond) input Parser.Failure ↔
  Parser.rest input = "" ∨ cond (Parser.rest input) = false.
Proof.
  split.
  - intros [_ [fuel Hrun]].
    apply (repeat_loop_sound E f cond fuel (Parser.rest input) "" []) in Hrun
      as (out & rest & Hscan & Hout); [|done..].
    destruct out; [|done].
    by destruct (interleave_empty E f cond _ _ _ _ _ Hscan eq_refl) as (_ & _ & ?).
  - intros Hstop. split; [done|]. exists 0.
    unfold Parser.repeat. rewrite repeat_loop_unfold.
    destruct Hstop as [->|Hfalse]; [done|]. rewrite Hfalse.
    by destruct (Parser.rest input).
Qed.

(** ** Parsers built from the library *)

(** [Parser.quoted] is itself put together from the combinators. *)
Lemma Built_quoted quote : Built (Parser.quoted quote).
Proof.
  unfold Parser.quoted. apply Built_pass; [apply Built_seq|]; try apply Built_string.
  apply Built_fmap, Built_many, Built_item.
Qed.

Section consumes_forward_facts.
Implicit Types (P Q : Parser.ParseFunction).

Local Ltac run_on P fuel input name H :=
  destruct (P fuel input) as [name| | |] eqn:H; cbn [Parser.on_success]; try done.

Lemma save_forward P key : consumes_forward P → consumes_forward (Parser.save P key).
Proof.
  intros HP fuel input out. unfold Parser.save. run_on P fuel input point Hpoint.
  intros [= <-]. cbn [Parser.rest]. by apply (HP fuel input).
Qed.

Lemma fmap_forward P mapper : consumes_forward P → consumes_forward (Parser.fmap P mapper).
Proof.
  intros HP fuel input out. unfold Parser.fmap. run_on P fuel input point Hpoint.
  intros [= <-]. cbn [Parser.rest]. by apply (HP fuel input).
Qed.

Lemma seq_forward P Q :
  consumes_forward P → consumes_forward Q → consumes_forward (Parser.seq P Q).
Proof.
  intros HP HQ fuel input out. unfold Parser.seq. run_on P fuel input lres Hl.
  intros Hr. eapply is_suffix_trans; [by apply (HQ fuel lres)|by apply (HP fuel input)].
Qed.

Lemma pass_forward P Q :
  consumes_forward P → consumes_forward Q → consumes_forward (Parser.pass P Q).
Proof.
  intros HP HQ fuel input out. unfold Parser.pass. run_on P fuel input lres Hl.
  run_on Q fuel lres rres Hr. intros [= <-]. cbn [Parser.rest].
  eapply is_suffix_trans; [by apply (HQ fuel lres)|by apply (HP fuel input)].
Qed.

Lemma bind_forward P Q :
  consumes_forward P → consumes_forward Q → consumes_forward (Parser.bind P Q).
Proof.
  intros HP HQ fuel input out. unfold Parser.bind. run_on P fuel input lres Hl.
  run_on Q fuel lres rres Hr.
  destruct (object_assign _ _); [|done]. intros [= <-]. cbn [Parser.rest].
  eapply is_suffix_trans; [by apply (HQ fuel lres)|by apply (HP fuel input)].
Qed.

(** The inversed combinators report the left parser's own remainder,
    whatever the inner parser does with the extracted value; nothing
    is asked of the inner parser [Q]. *)
Lemma bindInversed_forward P Q key :
  consumes_forward P → consumes_forward (Parser.bindInversed P Q key).
Proof.
  intros HP fuel input out. unfold Parser.bindInversed. run_on P fuel input lres Hl.
  destruct (Parser.inversed_rest key _) as [text|]; [|done].
  destruct (Q fuel _) as [rres| | |]; cbn [Parser.on_success]; try done.
  destruct (object_assign _ _); [|done]. intros [= <-]. cbn [Parser.rest]. by apply (HP fuel input).
Qed.

Lemma seqInversed_forward P Q key :
  consumes_forward P → consumes_forward (Parser.seqInversed P Q key).
Proof.
  intros HP fuel input out. unfold Parser.seqInversed. run_on P fuel input lres Hl.
  destruct (Parser.inversed_rest key _) as [text|]; [|done].
  destruct (Q fuel _) as [rres| | |]; cbn [Parser.on_success]; try done.
  intros [= <-]. cbn [Parser.rest]. by apply (HP fuel input).
Qed.

Lemma or_forward P Q :
  consumes_forward P → consumes_forward Q → consumes_forward (Parser.or P Q).
Proof.
  intros HP HQ fuel input out. unfold Parser.or.
  destruct (P fuel input) as [lres| | |] eqn:Hl; try done.
  - intros [= <-]. cbn [Parser.rest]. by apply (HP fuel input).
  - apply HQ.
Qed.

Lemma default_forward P v : consumes_forward P → consumes_forward (Parser.default P v).
Proof.
  intros HP fuel input out. unfold Parser.default.
  destruct (P fuel input) as [lres| | |] eqn:Hl; try done.
  - intros [= <-]. cbn [Parser.rest]. by apply (HP fuel input).
  - intros [= <-]. apply is_suffix_refl.
Qed.

Lemma many_loop_forward P min max condition input fuel text elements iterations out :
  consumes_forward P →
  Parser.many_loop P min max condition input fuel text elements iterations
    = Parser.Success out →
  is_suffix (Parser.rest out) text.
Proof.
  intros HP. revert text elements iterations.
  induction fuel as [|fuel IH]; intros text elements iterations;
    rewrite many_loop_unfold;
    destruct (Parser.goOn max condition text iterations); try done;
    try (intros [-> _]%many_return_success; apply is_suffix_refl).
  destruct (P fuel _) as [result| | |] eqn:Hresult; try done.
  - intros Hrest%IH. eapply is_suffix_trans; [exact Hrest|].
    by apply (HP fuel _ _ Hresult).
  - intros [-> _]%many_return_success. apply is_suffix_refl.
Qed.

Lemma many_forward P min max condition :
  consumes_forward P → consumes_forward (Parser.many P min max condition).
Proof. intros HP fuel input out. by apply many_loop_forward. Qed.

Lemma repeat_loop_forward E fromText condition fuel text chars elements out :
  consumes_forward E →
  Parser.repeat_loop E fromText condition fuel text chars elements
    = Parser.Success out →
  is_suffix (Parser.rest out) text.
Proof.
  intros HE.
  assert (Hreturn : ∀ text chars elements,
            Parser.repeat_return fromText text chars elements = Parser.Success out →
            is_suffix (Parser.rest out) text).
  { intros text' chars' elements'. unfold Parser.repeat_return.
    destruct (Parser.makeText _ _ _); [done|]. intros [= <-]. apply is_suffix_refl. }
  revert text chars elements.
  induction fuel as [|fuel IH]; intros text chars elements;
    rewrite repeat_loop_unfold; destruct text as [|c tail];
    try apply Hreturn; destruct (condition _); try done; try apply Hreturn.
  destruct (E fuel _) as [result| | |] eqn:Hresult; try done.
  - intros Hrest%IH. eapply is_suffix_trans; [exact Hrest|].
    by apply (HE fuel _ _ Hresult).
  - intros Hrest%IH. eapply is_suffix_trans; [exact Hrest|apply is_suffix_tail].
Qed.

Lemma repeat_forward E fromText condition :
  consumes_forward E → consumes_forward (Parser.repeat E fromText condition).
Proof. intros HE fuel input out. by apply repeat_loop_forward. Qed.

Lemma brackets_forward l r : consumes_forward (snd (Parser.brackets l r)).
Proof.
  intros fuel input out. cbn [snd Parser.brackets]. unfold Parser.brackets_internal.
  destruct (Parser.rest input) as [|c tail]; [done|].
  destruct (String.eqb _ l); [|done].
  destruct (Parser.brackets_loop _ _ _ _ _ _) as [index balance].
  destruct (balance =? 0); [|done]. intros [= <-]. apply is_suffix_slice_from.
Qed.

Lemma Built_consumes_forward P : Built P → consumes_forward P.
Proof.
  induction 1; eauto using save_forward, fmap_forward, seq_forward, pass_forward,
    bind_forward, bindInversed_forward, seqInversed_forward, or_forward,
    default_forward, many_forward, repeat_forward, brackets_forward.
  - intros fuel input out [= <-]. apply is_suffix_refl.
  - intros fuel input out [=].
  - intros fuel input out. unfold Parser.item.
    destruct (Parser.rest input); [done|]. intros [= <-]. apply is_suffix_tail.
  - intros fuel input out. unfold Parser.char.
    destruct (Parser.rest input); [done|]. destruct (String.eqb _ _); [|done].
    intros [= <-]. apply is_suffix_tail.
  - intros fuel input out. unfold Parser.sat.
    destruct (Parser.rest input); [done|]. destruct (condition _); [|done].
    intros [= <-]. apply is_suffix_tail.
  - intros fuel input out. unfold Parser.string.
    destruct (_ && _); [|done]. intros [= <-]. apply is_suffix_slice_from.
  - intros fuel input out. unfold Parser.peek.
    destruct (condition _); [|done]. intros [= <-]. apply is_suffix_refl.
  - intros fuel input out [= <-]. apply is_suffix_empty.
  - intros fuel input out. unfold Parser.end_.
    destruct (truthy _); [done|]. intros [= <-]. apply is_suffix_empty.
Qed.
End consumes_forward_facts.

(** ** Fuel monotonicity of the library *)

Section fuel_mono_facts.
Implicit Types (P Q : Parser.ParseFunction).

Lemma on_success_mono P (k k' : Parser.Just → Parser.Maybe) f f' input :
  fuel_mono P → f ≤ f' →
  (∀ j, k j ≠ Parser.Timeout → k' j = k j) →
  Parser.on_success (P f input) k ≠ Parser.Timeout →
  Parser.on_success (P f' input) k' = Parser.on_success (P f input) k.
Proof.
  intros HP Hf Hk Hrun.
  assert (P f input ≠ Parser.Timeout) as Hne by (by destruct (P f input)).
  rewrite (HP f f' input Hf Hne).
  destruct (P f input) as [j| | |]; cbn in *; auto.
Qed.

Lemma save_mono P key : fuel_mono P → fuel_mono (Parser.save P key).
Proof. intros HP f f' input Hf. unfold Parser.save. by apply on_success_mono. Qed.

Lemma fmap_mono P mapper : fuel_mono P → fuel_mono (Parser.fmap P mapper).
Proof. intros HP f f' input Hf. unfold Parser.fmap. by apply on_success_mono. Qed.

Lemma seq_mono P Q : fuel_mono P → fuel_mono Q → fuel_mono (Parser.seq P Q).
Proof.
  intros HP HQ f f' input Hf. unfold Parser.seq. apply on_success_mono; [done..|].
  intros j. by apply HQ.
Qed.

Lemma pass_mono P Q : fuel_mono P → fuel_mono Q → fuel_mono (Parser.pass P Q).
Proof.
  intros HP HQ f f' input Hf. unfold Parser.pass. apply on_success_mono; [done..|].
  intros j. by apply on_success_mono.
Qed.

Lemma bind_mono P Q : fuel_mono P → fuel_mono Q → fuel_mono (Parser.bind P Q).
Proof.
  intros HP HQ f f' input Hf. unfold Parser.bind. apply on_success_mono; [done..|].
  intros j. by apply on_success_mono.
Qed.

Lemma bindInversed_mono P Q key :
  fuel_mono P → fuel_mono Q → fuel_mono (Parser.bindInversed P Q key).
Proof.
  intros HP HQ f f' input Hf. unfold Parser.bindInversed.
  apply on_success_mono; [done..|].
  intros j. destruct (Parser.inversed_rest key _); [|done]. by apply on_success_mono.
Qed.

Lemma seqInversed_mono P Q key :
  fuel_mono P → fuel_mono Q → fuel_mono (Parser.seqInversed P Q key).
Proof.
  intros HP HQ f f' input Hf. unfold Parser.seqInversed.
  apply on_success_mono; [done..|].
  intros j. destruct (Parser.inversed_rest key _); [|done]. by apply on_success_mono.
Qed.

Lemma or_mono P Q : fuel_mono P → fuel_mono Q → fuel_mono (Parser.or P Q).
Proof.
  intros HP HQ f f' input Hf. unfold Parser.or. intros Hrun.
  assert (P f input ≠ Parser.Timeout) as Hne by (by destruct (P f input)).
  rewrite (HP f f' input Hf Hne).
  destruct (P f input) as [j| | |]; try done. by apply HQ.
Qed.

Lemma default_mono P v : fuel_mono P → fuel_mono (Parser.default P v).
Proof.
  intros HP f f' input Hf. unfold Parser.default. intros Hrun.
  assert (P f input ≠ Parser.Timeout) as Hne by (by destruct (P f input)).
  by rewrite (HP f f' input Hf Hne).
Qed.

Lemma many_loop_mono P min max condition input f f' text elements iterations :
  fuel_mono P → f ≤ f' →
  Parser.many_loop P min max condition input f text elements iterations ≠ Parser.Timeout →
  Parser.many_loop P min max condition input f' text elements iterations
  = Parser.many_loop P min max condition input f text elements iterations.
Proof.
  intros HP. revert f' text elements iterations.
  induction f as [|f IH]; intros f' text elements iterations Hf;
    rewrite !(many_loop_unfold _ _ _ _ _ _ text);
    destruct (Parser.goOn max condition text iterations); try done.
  destruct f' as [|f']; [lia|]. intros Hrun.
  assert (P f {| Parser.parsed := Parser.parsed input; Parser.rest := text |}
          ≠ Parser.Timeout) as Hne by (by destruct (P f _)).
  rewrite (HP f f' _ ltac:(lia) Hne).
  destruct (P f _) as [result| | |]; try done. apply IH; [lia|done].
Qed.

Lemma many_mono P min max condition : fuel_mono P → fuel_mono (Parser.many P min max condition).
Proof. intros HP f f' input Hf. by apply many_loop_mono. Qed.

Lemma repeat_loop_mono E fromText condition f f' text chars elements :
  fuel_mono E → f ≤ f' →
  Parser.repeat_loop E fromText condition f text chars elements ≠ Parser.Timeout →
  Parser.repeat_loop E fromText condition f' text chars elements
  = Parser.repeat_loop E fromText condition f text chars elements.
Proof.
  intros HE. revert f' text chars elements.
  induction f as [|f IH]; intros f' text chars elements Hf;
    rewrite !(repeat_loop_unfold _ _ _ _ text);
    destruct text as [|c tail]; try done;
    destruct (condition (String c tail)); try done.
  destruct f' as [|f']; [lia|]. intros Hrun.
  assert (E f {| Parser.parsed := VObj ∅; Parser.rest := String c tail |}
          ≠ Parser.Timeout) as Hne by (by destruct (E f _)).
  rewrite (HE f f' _ ltac:(lia) Hne).
  destruct (E f _) as [result| | |]; try done; (apply IH; [lia|done]).
Qed.

Lemma repeat_mono E fromText condition :
  fuel_mono E → fuel_mono (Parser.repeat E fromText condition).
Proof. intros HE f f' input Hf. by apply repeat_loop_mono. Qed.

(** Every parser of the library gives the same answer whenever the fuel
    suffices, so [returns] names the one result of a terminating
    run. *)
Lemma Built_fuel_mono P : Built P → fuel_mono P.
Proof.
  induction 1; eauto using save_mono, fmap_mono, seq_mono, pass_mono, bind_mono,
    bindInversed_mono, seqInversed_mono, or_mono, default_mono, many_mono,
    repeat_mono; by apply fuel_mono_fuel_free.
Qed.
End fuel_mono_facts.

(** ** Termination of the repetition loops *)

Section termination_facts.
Variable P : Parser.ParseFunction.
Hypothesis P_mono : fuel_mono P.
Hypothesis P_terminates : terminates P.
Hypothesis P_consumes : strictly_consumes P.

Lemma many_loop_terminates min max condition input n :
  ∀ text elements iterations,
    String.length text ≤ n →
    ∃ fuel,
      Parser.many_loop P min max condition input fuel text elements iterations
      ≠ Parser.Timeout.
Proof.
  induction n as [|n IH]; intros text elements iterations Hlen.
  - exists 0. rewrite many_loop_unfold. destruct text; [|simpl in Hlen; lia].
    assert (Parser.goOn max condition "" iterations = false) as ->
      by (unfold Parser.goOn; by destruct condition).
    unfold Parser.many_return. by destruct (_ || _).
  - destruct (Parser.goOn max condition text iterations) eqn:Hgo.
    2:{ exists 0. rewrite many_loop_unfold, Hgo.
        unfold Parser.many_return. by destruct (_ || _). }
    destruct (P_terminates {| Parser.parsed := Parser.parsed input; Parser.rest := text |})
      as [out [Hout [f1 Hrun]]].
    destruct out as [result| | |]; [| |done|].
    + pose proof (P_consumes _ _ _ Hrun) as Hshort. cbn [Parser.rest] in Hshort.
      destruct (IH (Parser.rest result) (elements ++ [Parser.parsed result])
                  (S iterations) ltac:(lia)) as [f2 Hloop].
      exists (S (f1 `max` f2)). rewrite many_loop_unfold, Hgo.
      rewrite (returns_mono P _ _ f1 P_mono Hrun) by (done || lia).
      by rewrite (many_loop_mono P min max condition input f2) by (done || lia).
    + exists (S f1). rewrite many_loop_unfold, Hgo, Hrun.
      unfold Parser.many_return. by destruct (_ || _).
    + exists (S f1). by rewrite many_loop_unfold, Hgo, Hrun.
Qed.

Lemma repeat_loop_terminates fromText condition n :
  ∀ text chars elements,
    String.length text ≤ n →
    ∃ fuel,
      Parser.repeat_loop P fromText condition fuel text chars elements
      ≠ Parser.Timeout.
Proof.
  assert (Hreturn : ∀ text chars elements,
            Parser.repeat_return fromText text chars elements ≠ Parser.Timeout).
  { intros text chars elements. unfold Parser.repeat_return.
    by destruct (Parser.makeText _ _ _). }
  induction n as [|n IH]; intros text chars elements Hlen.
  - exists 0. rewrite repeat_loop_unfold. destruct text; [|simpl in Hlen; lia].
    apply Hreturn.
  - destruct text as [|c tail].
    { exists 0. rewrite repeat_loop_unfold. apply Hreturn. }
    destruct (condition (String c tail)) eqn:Hcond.
    2:{ exists 0. rewrite repeat_loop_unfold, Hcond. apply Hreturn. }
    destruct (P_terminates {| Parser.parsed := VObj ∅; Parser.rest := String c tail |})
      as [out [Hout [f1 Hrun]]].
    simpl in Hlen.
    destruct out as [result| | |]; [| |done|].
    + pose proof (P_consumes _ _ _ Hrun) as Hshort. cbn [Parser.rest] in Hshort.
      simpl in Hshort.
      destruct (IH (Parser.rest result) []
                  (Parser.makeText fromText chars elements ++ [Parser.parsed result])
                  ltac:(lia)) as [f2 Hloop].
      exists (S (f1 `max` f2)). rewrite repeat_loop_unfold, Hcond.
      rewrite (returns_mono P _ _ f1 P_mono Hrun) by (done || lia).
      by rewrite (repeat_loop_mono P fromText condition f2) by (done || lia).
    + destruct (IH tail (chars ++ [unit_string c]) elements ltac:(lia)) as [f2 Hloop].
      exists (S (f1 `max` f2)). rewrite repeat_loop_unfold, Hcond.
      rewrite (returns_mono P _ _ f1 P_mono Hrun) by (done || lia).
      by rewrite (repeat_loop_mono P fromText condition f2) by (done || lia).
    + exists (S f1). by rewrite repeat_loop_unfold, Hcond, Hrun.
Qed.
End termination_facts.

Section divergence_facts.
Variables (N : Parser.ParseFunction) (text : string).
Hypothesis text_nonempty : text ≠ "".
Hypothesis N_in_place : succeeds_in_place N text.

Lemma many_loop_diverges min condition input fuel elements iterations :
  (∀ c, condition = Some c → c text = true) →
  Parser.many_loop N min 0 condition input fuel text elements iterations
  = Parser.Timeout.
Proof.
  intros Hcond. revert elements iterations.
  assert (Hgo : ∀ iterations, Parser.goOn 0 condition text iterations = true).
  { intros iterations. unfold Parser.goOn. apply truthy_spec in text_nonempty as ->.
    destruct condition as [c|]; [|done]. by rewrite (Hcond c). }
  induction fuel as [|fuel IH]; intros elements iterations;
    rewrite many_loop_unfold, Hgo; [done|].
  destruct (N_in_place fuel (Parser.parsed input)) as [v ->]. apply IH.
Qed.

Lemma repeat_loop_diverges fromText condition fuel chars elements :
  condition text = true →
  Parser.repeat_loop N fromText condition fuel text chars elements = Parser.Timeout.
Proof.
  intros Hcond. revert chars elements.
  induction fuel as [|fuel IH]; intros chars elements;
    rewrite repeat_loop_unfold; destruct text as [|c tail] eqn:Htext; try done;
    rewrite Hcond; [done|].
  destruct (N_in_place fuel (VObj ∅)) as [v ->]. apply IH.
Qed.
End divergence_facts.

(** C10: for every parser [P] that ends on each input and strictly
    consumes input on every success, the two repetition loops end on
    every input: [many(P, min, max, condition)] for all bounds and
    conditions, and [Parser.repeat(P, f, cond)], where each iteration
    either moves to [P]'s shorter remainder or drops one character.
    The precondition cannot be dropped: with a parser that succeeds
    without consuming at a non-empty remainder where the condition
    holds, [many] without an upper bound and [Parser.repeat] never
    end, whatever the fuel. *)
Theorem repetition_termination :
  (∀ P, fuel_mono P → terminates P → strictly_consumes P →
     (∀ min max condition, terminates (Parser.many P min max condition)) ∧
     (∀ fromText condition, terminates (Parser.repeat P fromText condition))) ∧
  (∀ N text, text ≠ "" → succeeds_in_place N text →
     (∀ min condition pv fuel,
        (∀ c, condition = Some c → c text = true) →
        Parser.many N min 0 condition fuel {| Parser.parsed := pv; Parser.rest := text |}
        = Parser.Timeout) ∧
     (∀ fromText condition pv fuel,
        condition text = true →
        Parser.repeat N fromText condition fuel
          {| Parser.parsed := pv; Parser.rest := text |}
        = Parser.Timeout)).
Proof.
  split.
  - intros P Hmono Hterm Hcons. split.
    + intros min max condition input.
      destruct (many_loop_terminates P Hmono Hterm Hcons min max condition input
                  (String.length (Parser.rest input)) (Parser.rest input) [] 0
                  ltac:(done)) as [fuel Hrun].
      exists (Parser.many P min max condition fuel input). split; [done|]. by exists fuel.
    + intros fromText condition input.
      destruct (repeat_loop_terminates P Hmono Hterm Hcons fromText condition
                  (String.length (Parser.rest input)) (Parser.rest input) [] []
                  ltac:(done)) as [fuel Hrun].
      exists (Parser.repeat P fromText condition fuel input). split; [done|]. by exists fuel.
  - intros N text Hne HN. split.
    + intros min condition pv fuel Hcond. unfold Parser.many.
      by apply many_loop_diverges.
    + intros fromText condition pv fuel Hcond. unfold Parser.repeat.
      by apply repeat_loop_diverges.
Qed.

Lemma repetition_termination_witness :
  let P := Parser.char "a" in
  let N := Parser.result VUndef in
  let input := {| Parser.parsed := VUndef; Parser.rest := "aab" |} in
  fuel_mono P ∧ terminates P ∧ strictly_consumes P ∧
  (∃ out, returns (Parser.many P 0 0 None) input out) ∧
  (∃ out, returns (Parser.repeat P VStr (fun _ => true)) input out) ∧
  "aab" ≠ "" ∧ succeeds_in_place N "aab" ∧
  (∀ fuel, Parser.many N 0 0 None fuel input = Parser.Timeout) ∧
  (∀ fuel, Parser.repeat N VStr (fun _ => true) fuel input = Parser.Timeout).
Proof.
  intros P N input.
  assert (Hmono : fuel_mono P) by (by apply fuel_mono_fuel_free).
  assert (Hterm : terminates P).
  { intros i. exists (P 0 i). split; [|by exists 0].
    unfold P, Parser.char. destruct (Parser.rest i); [done|]. by destruct (String.eqb _ _). }
  assert (Hcons : strictly_consumes P).
  { intros fuel i out. unfold P, Parser.char.
    destruct (Parser.rest i); [done|]. destruct (String.eqb _ _); [|done].
    intros [= <-]. simpl. lia. }
  assert (Hne : "aab" ≠ "") by discriminate.
  assert (HN : succeeds_in_place N "aab") by (intros fuel pv; by exists VUndef).
  pose proof (proj1 repetition_termination P Hmono Hterm Hcons) as [Hmany Hrepeat].
  pose proof (proj2 repetition_termination N "aab" Hne HN) as [Dmany Drepeat].
  split; [exact Hmono|]. split; [exact Hterm|]. split; [exact Hcons|].
  split; [apply Hmany|]. split; [apply Hrepeat|].
  split; [exact Hne|]. split; [exact HN|]. split.
  - intros fuel. apply Dmany. intros c. discriminate.
  - intros fuel. by apply Drepeat.
Defined.

(** ** Runs that end *)

Section settles_facts.
Implicit Types (P Q : Parser.ParseFunction) (m : nat → Parser.Maybe).

Lemma settles_run P input : fuel_mono P → terminates P → settles (fun f => P f input).
Proof.
  intros HP Hterm. destruct (Hterm input) as (out & Hout & f0 & Hrun).
  exists f0, out. split; [done|]. intros f Hf. by apply (returns_mono P input out f0).
Qed.

Lemma settles_terminates P : (∀ input, settles (fun f => P f input)) → terminates P.
Proof.
  intros HP input. destruct (HP input) as (f0 & out & Hout & Hrun).
  exists out. split; [done|]. exists f0. by apply Hrun.
Qed.

Lemma settles_on_success m (k : nat → Parser.Just → Parser.Maybe) :
  settles m → (∀ j, settles (fun f => k f j)) →
  settles (fun f => Parser.on_success (m f) (k f)).
Proof.
  intros (f0 & out & Hout & Hm) Hk. destruct out as [j| | |]; [| |done|].
  - destruct (Hk j) as (f1 & out' & Hout' & Hkj).
    exists (f0 `max` f1), out'. split; [done|]. intros f Hf.
    rewrite Hm by lia. cbn. apply Hkj. lia.
  - exists f0, Parser.Failure. split; [done|]. intros f Hf. by rewrite Hm.
  - exists f0, Parser.Illtyped. split; [done|]. intros f Hf. by rewrite Hm.
Qed.

Lemma settles_or_else m m' :
  settles m → settles m' →
  settles (fun f => match m f with Parser.Failure => m' f | outcome => outcome end).
Proof.
  intros (f0 & out & Hout & Hm) (f1 & out' & Hout' & Hm').
  destruct out as [j| | |]; [| |done|].
  - exists f0, (Parser.Success j). split; [done|]. intros f Hf. by rewrite Hm.
  - exists (f0 `max` f1), out'. split; [done|]. intros f Hf.
    rewrite Hm by lia. apply Hm'. lia.
  - exists f0, Parser.Illtyped. split; [done|]. intros f Hf. by rewrite Hm.
Qed.

Lemma many_loop_terminates_bounded P min max condition input n :
  fuel_mono P → terminates P → max ≠ 0 →
  ∀ text elements iterations,
    S max ≤ iterations + n →
    ∃ fuel,
      Parser.many_loop P min max condition input fuel text elements iterations
      ≠ Parser.Timeout.
Proof.
  intros HP Hterm Hmax.
  induction n as [|n IH]; intros text elements iterations Hn.
  - exists 0. rewrite many_loop_unfold.
    assert (Parser.overflow max iterations = true) as Ho by (apply overflow_spec; lia).
    assert (Parser.goOn max condition text iterations = false) as ->.
    { unfold Parser.goOn. rewrite Ho. destruct condition; by rewrite andb_false_r. }
    unfold Parser.many_return. by rewrite Ho.
  - destruct (Parser.goOn max condition text iterations) eqn:Hgo.
    2:{ exists 0. rewrite many_loop_unfold, Hgo.
        unfold Parser.many_return. by destruct (_ || _). }
    destruct (Hterm {| Parser.parsed := Parser.parsed input; Parser.rest := text |})
      as [out [Hout [f1 Hrun]]].
    destruct out as [result| | |]; [| |done|].
    + destruct (IH (Parser.rest result) (elements ++ [Parser.parsed result])
                  (S iterations) ltac:(lia)) as [f2 Hloop].
      exists (S (f1 `max` f2)). rewrite many_loop_unfold, Hgo.
      rewrite (returns_mono P _ _ f1 HP Hrun) by (done || lia).
      by rewrite (many_loop_mono P min max condition input f2) by (done || lia).
    + exists (S f1). rewrite many_loop_unfold, Hgo, Hrun.
      unfold Parser.many_return. by destruct (_ || _).
    + exists (S f1). by rewrite many_loop_unfold, Hgo, Hrun.
Qed.

Lemma Productive_Built P : Productive P → Built P.
Proof. induction 1; by constructor. Qed.

Lemma settles_fuel_free m : (∀ f, m f = m 0) → m 0 ≠ Parser.Timeout → settles m.
Proof. intros Hfree Hout. exists 0, (m 0). split; [done|]. intros f _. apply Hfree. Qed.

Lemma Productive_settles P : Productive P → ∀ input, settles (fun f => P f input).
Proof.
  induction 1 as [v| | |c|condition|template|condition| | |l r
                 |E fromText condition HE IHE Hcons
                 |P key HP IHP|P Q HP IHP HQ IHQ|P Q key HP IHP HQ IHQ
                 |P Q HP IHP HQ IHQ|P Q key HP IHP HQ IHQ|P Q HP IHP HQ IHQ
                 |P Q HP IHP HQ IHQ|P min max condition HP IHP Hmax
                 |P min max condition HP IHP Hcons|P mapper HP IHP|P v HP IHP].
  - intros input. by apply settles_fuel_free.
  - intros input. by apply settles_fuel_free.
  - intros input. apply settles_fuel_free; [done|].
    unfold Parser.item. by destruct (Parser.rest input).
  - intros input. apply settles_fuel_free; [done|]. unfold Parser.char.
    destruct (Parser.rest input); [done|]. by destruct (String.eqb _ _).
  - intros input. apply settles_fuel_free; [done|]. unfold Parser.sat.
    destruct (Parser.rest input); [done|]. by destruct (condition _).
  - intros input. apply settles_fuel_free; [done|].
    unfold Parser.string. by destruct (_ && _).
  - intros input. apply settles_fuel_free; [done|].
    unfold Parser.peek. by destruct (condition _).
  - intros input. by apply settles_fuel_free.
  - intros input. apply settles_fuel_free; [done|].
    unfold Parser.end_. by destruct (truthy _).
  - intros input. apply settles_fuel_free; [done|]. cbn [snd Parser.brackets].
    unfold Parser.brackets_internal. destruct (Parser.rest input) as [|c tail]; [done|].
    destruct (String.eqb _ l); [|done].
    destruct (Parser.brackets_loop _ _ _ _ _ _) as [index balance].
    by destruct (balance =? 0).
  - intros input.
    assert (HmE : fuel_mono E) by (by apply Built_fuel_mono, Productive_Built).
    apply settles_run; [by apply repeat_mono|]. clear input. intros input.
    destruct (repeat_loop_terminates E HmE (settles_terminates E IHE) Hcons
                fromText condition (String.length (Parser.rest input))
                (Parser.rest input) [] [] ltac:(done)) as [fuel Hrun].
    exists (Parser.repeat E fromText condition fuel input). split; [done|]. by exists fuel.
  - intros input. unfold Parser.save. apply settles_on_success; [apply IHP|].
    intros j. by apply settles_fuel_free.
  - intros input. unfold Parser.bind. apply settles_on_success; [apply IHP|].
    intros j. apply settles_on_success; [apply IHQ|].
    intros j'. apply settles_fuel_free; [done|]. by destruct (object_assign _ _).
  - intros input. unfold Parser.bindInversed. apply settles_on_success; [apply IHP|].
    intros j. destruct (Parser.inversed_rest key _); [|by apply settles_fuel_free].
    apply settles_on_success; [apply IHQ|].
    intros j'. apply settles_fuel_free; [done|]. by destruct (object_assign _ _).
  - intros input. unfold Parser.seq. apply settles_on_success; [apply IHP|].
    intros j. apply IHQ.
  - intros input. unfold Parser.seqInversed. apply settles_on_success; [apply IHP|].
    intros j. destruct (Parser.inversed_rest key _); [|by apply settles_fuel_free].
    apply settles_on_success; [apply IHQ|]. intros j'. by apply settles_fuel_free.
  - intros input. unfold Parser.pass. apply settles_on_success; [apply IHP|].
    intros j. apply settles_on_success; [apply IHQ|]. intros j'. by apply settles_fuel_free.
  - intros input. unfold Parser.or. apply settles_or_else; [apply IHP|apply IHQ].
  - intros input.
    assert (HmP : fuel_mono P) by (by apply Built_fuel_mono, Productive_Built).
    apply settles_run; [by apply many_mono|]. clear input. intros input.
    destruct (many_loop_terminates_bounded P min max condition input (S max)
                HmP (settles_terminates P IHP) Hmax (Parser.rest input) [] 0
                ltac:(lia)) as [fuel Hrun].
    exists (Parser.many P min max condition fuel input). split; [done|]. by exists fuel.
  - intros input.
    assert (HmP : fuel_mono P) by (by apply Built_fuel_mono, Productive_Built).
    apply settles_run; [by apply many_mono|]. clear input. intros input.
    destruct (many_loop_terminates P HmP (settles_terminates P IHP) Hcons
                min max condition input (String.length (Parser.rest input))
                (Parser.rest input) [] 0 ltac:(done)) as [fuel Hrun].
    exists (Parser.many P min max condition fuel input). split; [done|]. by exists fuel.
  - intros input. unfold Parser.fmap. apply settles_on_success; [apply IHP|].
    intros j. by apply settles_fuel_free.
  - intros input. unfold Parser.default.
    apply (settles_or_else (fun f => P f input)
             (fun _ => Parser.Success {| Parser.parsed := v;
                                         Parser.rest := Parser.rest input |}));
      [apply IHP|by apply settles_fuel_free].
Qed.
End settles_facts.

(** ** Monotonic consumption *)

(** C1: for every parser [P] built from the library's primitive
    constructors and combinators (with any pure predicates and mappers)
    and every input string [s], a run of [P] on [s] ends either in
    [Failure] or in a [Success] whose remainder is a suffix of [s],
    hence no longer than [s].  For [bindInversed] and [seqInversed] the
    inner parser, which may be any parse function at all, runs on the
    text extracted from the left result, and the remainder the
    combinator reports is the left parser's own, a suffix of the input
    remainder.  When the loops of [P] are guarded the run does end:
    enough fuel gives a result, which is [Failure], or a [Success]
    with a suffix of [s], or the report that an ill-typed value was
    met. *)
Theorem monotonic_consumption (P : Parser.ParseFunction) (fuel : nat) (s : string) :
  Built P →
  (∀ out, Parser.parseText P fuel s = Parser.Success out →
     is_suffix (Parser.rest out) s ∧
     String.length (Parser.rest out) ≤ String.length s) ∧
  (∀ Q key input out,
     Parser.bindInversed P Q key fuel input = Parser.Success out ∨
     Parser.seqInversed P Q key fuel input = Parser.Success out →
     ∃ lres text rres,
       P fuel input = Parser.Success lres ∧
       Parser.inversed_rest key (Parser.parsed lres) = Some text ∧
       Q fuel {| Parser.parsed := VUndef; Parser.rest := text |} = Parser.Success rres ∧
       Parser.rest out = Parser.rest lres ∧
       is_suffix (Parser.rest out) (Parser.rest input)) ∧
  (Productive P →
     ∃ result,
       returns P {| Parser.parsed := VUndef; Parser.rest := s |} result ∧
       (result = Parser.Failure ∨ result = Parser.Illtyped ∨
        ∃ out, result = Parser.Success out ∧ is_suffix (Parser.rest out) s)).
Proof.
  intros HP%Built_consumes_forward. split; [|split].
  - intros out Hrun. apply HP in Hrun. cbn [Parser.rest] in Hrun.
    split; [done|by apply is_suffix_length].
  - intros Q key input out Hrun.
    unfold Parser.bindInversed, Parser.seqInversed in Hrun.
    destruct (P fuel input) as [lres| | |] eqn:Hl; cbn [Parser.on_success] in Hrun;
      [|by destruct Hrun..].
    destruct (Parser.inversed_rest key _) as [text|] eqn:Htext; [|by destruct Hrun].
    destruct (Q fuel _) as [rres| | |] eqn:Hr; cbn [Parser.on_success] in Hrun;
      [|by destruct Hrun..].
    exists lres, text, rres.
    assert (Hrest : Parser.rest out = Parser.rest lres).
    { destruct Hrun as [Hrun|Hrun].
      - destruct (object_assign _ _); [|done]. by injection Hrun as <-.
      - by injection Hrun as <-. }
    repeat (split; [done|]). rewrite Hrest. by apply (HP fuel input).
  - intros Hprod.
    destruct (Productive_settles P Hprod {| Parser.parsed := VUndef; Parser.rest := s |})
      as (f0 & result & Hresult & Hrun).
    exists result. split; [split; [done|]; exists f0; by apply Hrun|].
    destruct result as [out| | |]; [|by left|done|by right; left].
    right. right. exists out. split; [done|].
    apply (HP f0 {| Parser.parsed := VUndef; Parser.rest := s |}). by apply Hrun.
Qed.

Lemma monotonic_consumption_witness :
  let P := Parser.seqInversed (snd (Parser.brackets "(" ")"))
             (Parser.many (Parser.char "a") 1 0 None) None in
  Built P ∧
  Parser.parseText P 5 "(aab)c"
    = Parser.Success {| Parser.parsed := VArr [VStr "a"; VStr "a"]; Parser.rest := "c" |} ∧
  is_suffix "c" "(aab)c" ∧
  Productive P ∧
  ∃ result, returns P {| Parser.parsed := VUndef; Parser.rest := "(aab)c" |} result.
Proof.
  intros P.
  assert (Hcons : strictly_consumes (Parser.char "a")).
  { intros fuel i out. unfold Parser.char.
    destruct (Parser.rest i); [done|]. destruct (String.eqb _ _); [|done].
    intros [= <-]. simpl. lia. }
  assert (HP : Productive P).
  { apply Productive_seqInversed; [apply Productive_brackets|].
    apply Productive_many_consuming; [apply Productive_char|exact Hcons]. }
  assert (HB : Built P).
  { apply Built_seqInversed; [apply Built_brackets|apply Built_many, Built_char]. }
  assert (Hrun : Parser.parseText P 5 "(aab)c"
                 = Parser.Success {| Parser.parsed := VArr [VStr "a"; VStr "a"];
                                     Parser.rest := "c" |}) by reflexivity.
  pose proof (monotonic_consumption P 5 "(aab)c" HB) as (Hsafe & _ & Hends).
  split; [exact HB|]. split; [exact Hrun|].
  split; [exact (proj1 (Hsafe _ Hrun))|]. split; [exact HP|].
  destruct (Hends HP) as (result & Hresult & _). by exists result.
Defined.

(** * Further properties of the combinators *)

(** ** Alternation, sequencing and mapping *)

(** X1: alternation is associative and [Parser.zero] is its unit on
    both sides: [or] tries its operands from left to right on the same
    input and the first success wins. *)
Theorem or_laws (P Q R : Parser.ParseFunction) (fuel : nat) (input : Parser.Just) :
  Parser.or (Parser.or P Q) R fuel input = Parser.or P (Parser.or Q R) fuel input ∧
  Parser.or Parser.zero P fuel input = P fuel input ∧
  Parser.or P Parser.zero fuel input = P fuel input.
Proof.
  unfold Parser.or, Parser.zero. repeat split.
  - by destruct (P fuel input).
  - by destruct (P fuel input).
Qed.

(** X2: [default(d)] is alternation with the constant parser,
    [P.default(d)] behaves as [P.or(Parser.result(d))], and it never
    returns [Failure]. *)
Theorem default_as_or (P : Parser.ParseFunction) (d : value) (fuel : nat)
    (input : Parser.Just) :
  Parser.default P d fuel input = Parser.or P (Parser.result d) fuel input ∧
  Parser.default P d fuel input ≠ Parser.Failure.
Proof.
  unfold Parser.default, Parser.or, Parser.result.
  by destruct (P fuel input).
Qed.

(** X3: sequencing is associative, and a failing left operand makes
    the sequence fail without the right operand being consulted. *)
Theorem seq_laws (P Q R : Parser.ParseFunction) (fuel : nat) (input : Parser.Just) :
  Parser.seq (Parser.seq P Q) R fuel input = Parser.seq P (Parser.seq Q R) fuel input ∧
  Parser.seq Parser.zero P fuel input = Parser.Failure ∧
  (P fuel input = Parser.Failure → Parser.seq P Q fuel input = Parser.Failure).
Proof.
  unfold Parser.seq, Parser.zero. repeat split.
  - by destruct (P fuel input).
  - by intros ->.
Qed.

Lemma seq_laws_witness :
  Parser.char "a" 0 {| Parser.parsed := VUndef; Parser.rest := "b" |} = Parser.Failure ∧
  Parser.seq (Parser.char "a") Parser.all 0
    {| Parser.parsed := VUndef; Parser.rest := "b" |} = Parser.Failure.
Proof.
  split; [reflexivity|].
  apply (proj2 (proj2 (seq_laws (Parser.char "a") Parser.all Parser.all 0
                         {| Parser.parsed := VUndef; Parser.rest := "b" |}))).
  reflexivity.
Defined.


(** X5: [pass] and [seq] run the same two parsers in the same order,
    [Q] on the state [P] returned: they succeed on the same inputs and
    leave the same remainder, that of [Q]; [pass] returns the value of
    [P] where [seq] returns the value of [Q]. *)
Theorem pass_seq_agree (P Q : Parser.ParseFunction) (fuel : nat) (input : Parser.Just)
    (v : value) (r : string) :
  Parser.pass P Q fuel input = Parser.Success {| Parser.parsed := v; Parser.rest := r |} ↔
  ∃ lres rres,
    P fuel input = Parser.Success lres ∧ Q fuel lres = Parser.Success rres ∧
    v = Parser.parsed lres ∧ r = Parser.rest rres ∧
    Parser.seq P Q fuel input
      = Parser.Success {| Parser.parsed := Parser.parsed rres; Parser.rest := r |}.
Proof.
  unfold Parser.pass, Parser.seq. split.
  - destruct (P fuel input) as [lres| | |]; cbn; try done.
    destruct (Q fuel lres) as [[w r']| | |] eqn:HQ; cbn; try done.
    intros [= <- <-]. exists lres, {| Parser.parsed := w; Parser.rest := r' |}.
    cbn. by rewrite HQ.
  - intros (lres & rres & -> & HQ & -> & -> & _). cbn. by rewrite HQ.
Qed.


(** ** Single characters *)

(** X7: [Parser.char(c)] for a one-character [c] is [Parser.sat] with
    the test "equals [c]"; for a [c] that is not exactly one character
    it never succeeds; [Parser.item] is [Parser.sat] with the test
    that always holds; and a successful [sat] consumes exactly the
    first character, which satisfies the test and is the value. *)
Theorem single_character_parsers (a : ascii) (c : string) (p : Parser.Predicate)
    (fuel : nat) (input : Parser.Just) :
  Parser.char (unit_string a) fuel input
    = Parser.sat (fun x => String.eqb x (unit_string a)) fuel input ∧
  (String.length c ≠ 1 → Parser.char c fuel input = Parser.Failure) ∧
  Parser.item fuel input = Parser.sat (fun _ => true) fuel input ∧
  (∀ out, Parser.sat p fuel input = Parser.Success out →
     ∃ x, Parser.rest input = String x (Parser.rest out) ∧
          Parser.parsed out = VStr (unit_string x) ∧ p (unit_string x) = true).
Proof.
  unfold Parser.char, Parser.sat, Parser.item. repeat split.
  - destruct (Parser.rest input) as [|x tail]; [done|].
    rewrite unit_string_eqb. case_bool_decide; [by subst|done].
  - intros Hlen. destruct (Parser.rest input) as [|x tail]; [done|].
    destruct (String.eqb_spec (unit_string x) c) as [<-|]; done.
  - intros out. destruct (Parser.rest input) as [|x tail]; [done|].
    destruct (p (unit_string x)) eqn:Hp; [|done]. intros [= <-]. by exists x.
Qed.

Lemma single_character_parsers_witness :
  String.length "ab" ≠ 1 ∧
  Parser.char "ab" 0 {| Parser.parsed := VUndef; Parser.rest := "abc" |} = Parser.Failure.
Proof.
  split; [simpl; lia|].
  apply (proj1 (proj2 (single_character_parsers "a" "ab" (fun _ => true) 0
                         {| Parser.parsed := VUndef; Parser.rest := "abc" |}))).
  simpl. lia.
Defined.

(** ** Repetition *)

Section many_more_facts.
Implicit Types (P : Parser.ParseFunction).

Lemma item_as_sat fuel input :
  Parser.item fuel input = Parser.sat (fun _ => true) fuel input.
Proof. reflexivity. Qed.

Lemma many_return_unbounded text elements iterations :
  Parser.many_return 0 0 text elements iterations
  = Parser.Success {| Parser.parsed := VArr elements; Parser.rest := text |}.
Proof. reflexivity. Qed.

Lemma many_loop_never_fails P condition input fuel text elements iterations :
  Parser.many_loop P 0 0 condition input fuel text elements iterations ≠ Parser.Failure.
Proof.
  revert text elements iterations.
  induction fuel as [|fuel IH]; intros text elements iterations;
    rewrite many_loop_unfold;
    destruct (Parser.goOn 0 condition text iterations); try done.
  destruct (P fuel _) as [result| | |]; [apply IH|done..].
Qed.

Lemma many_loop_ext P P' min max condition input fuel text elements iterations :
  (∀ f i, P f i = P' f i) →
  Parser.many_loop P min max condition input fuel text elements iterations
  = Parser.many_loop P' min max condition input fuel text elements iterations.
Proof.
  intros Hext. revert text elements iterations.
  induction fuel as [|fuel IH]; intros text elements iterations;
    rewrite !(many_loop_unfold _ _ _ _ _ _ text); [done|].
  rewrite Hext. destruct (Parser.goOn max condition text iterations); [|done].
  destruct (P' fuel _) as [result| | |]; [apply IH|done..].
Qed.

Lemma take_drop_while p s : take_while p s +:+ drop_while p s = s.
Proof.
  induction s as [|c s IH]; [done|]. simpl.
  destruct (p (unit_string c)); [|done]. by rewrite append_cons, IH.
Qed.

Lemma many_sat_loop p input text fuel elements iterations :
  String.length text ≤ fuel →
  Parser.many_loop (Parser.sat p) 0 0 None input fuel text elements iterations
  = Parser.Success {| Parser.parsed := VArr (elements ++ chars_of (take_while p text));
                      Parser.rest := drop_while p text |}.
Proof.
  revert fuel elements iterations.
  induction text as [|c text IH]; intros fuel elements iterations Hfuel;
    rewrite many_loop_unfold.
  - cbn. by rewrite app_nil_r.
  - simpl in Hfuel. destruct fuel as [|fuel]; [lia|].
    cbn [Parser.goOn truthy andb Parser.overflow negb Parser.sat Parser.rest].
    cbn [take_while drop_while].
    destruct (p (unit_string c)).
    + cbn [Parser.rest Parser.parsed chars_of]. rewrite IH by lia.
      by rewrite <- app_assoc.
    + cbn. by rewrite app_nil_r.
Qed.

Lemma take_while_true s : take_while (fun _ => true) s = s.
Proof. induction s as [|c s IH]; [done|]. simpl. by rewrite IH. Qed.

Lemma drop_while_true s : drop_while (fun _ => true) s = "".
Proof. by induction s. Qed.

Lemma many_loop_consumed P min max condition input fuel text elements iterations out :
  strictly_consumes P →
  Parser.many_loop P min max condition input fuel text elements iterations
    = Parser.Success out →
  ∃ k, String.length (Parser.rest out) + k ≤ String.length text ∧
       (min ≠ 0 → min ≤ iterations + k).
Proof.
  intros HP. revert text elements iterations.
  induction fuel as [|fuel IH]; intros text elements iterations;
    rewrite many_loop_unfold;
    destruct (Parser.goOn max condition text iterations); try done;
    try (intros (-> & Hmin & _)%many_return_success; exists 0; cbn;
         split; [lia|intros ?; rewrite Nat.add_0_r; auto]).
  destruct (P fuel _) as [result| | |] eqn:Hresult; try done.
  - intros (k & Hlen & Hmin)%IH. apply HP in Hresult. cbn [Parser.rest] in Hresult.
    exists (S k). split; [lia|]. intros Hne. specialize (Hmin Hne). lia.
  - intros (-> & Hmin & _)%many_return_success. exists 0. cbn.
    split; [lia|intros ?; rewrite Nat.add_0_r; auto].
Qed.
End many_more_facts.

(** X8: without bounds [many] never returns [Failure]: when the
    repeated parser fails at once, or the input is empty, the result is
    the empty array and the unchanged remainder. *)
Theorem many_unbounded_never_fails (P : Parser.ParseFunction)
    (condition : option Parser.Predicate) (fuel : nat) (input : Parser.Just) :
  Parser.many P 0 0 condition fuel input ≠ Parser.Failure ∧
  (P fuel {| Parser.parsed := Parser.parsed input; Parser.rest := Parser.rest input |}
     = Parser.Failure ∨ Parser.rest input = "" →
   Parser.many P 0 0 condition (S fuel) input
   = Parser.Success {| Parser.parsed := VArr []; Parser.rest := Parser.rest input |}).
Proof.
  split; [apply many_loop_never_fails|].
  unfold Parser.many. rewrite many_loop_unfold. intros [HP| ->].
  - rewrite HP. by destruct (Parser.goOn 0 condition _ 0).
  - by destruct condition.
Qed.

Lemma many_unbounded_never_fails_witness :
  Parser.char "a" 0 {| Parser.parsed := VUndef; Parser.rest := "b" |} = Parser.Failure ∧
  Parser.many (Parser.char "a") 0 0 None 1 {| Parser.parsed := VUndef; Parser.rest := "b" |}
  = Parser.Success {| Parser.parsed := VArr []; Parser.rest := "b" |}.
Proof.
  split; [reflexivity|].
  apply (proj2 (many_unbounded_never_fails (Parser.char "a") None 0
                  {| Parser.parsed := VUndef; Parser.rest := "b" |})).
  left. reflexivity.
Defined.

(** X9: [Parser.sat(p).many().fmap(cs => cs.join(''))] takes the
    longest prefix of the input whose characters all satisfy [p]: the
    value is that prefix and the remainder is what follows it (the
    README's [untilSpaceParser]).  Fuel equal to the length of the
    input is enough. *)
Theorem many_sat_takes_while (p : Parser.Predicate) (fuel : nat) (input : Parser.Just) :
  String.length (Parser.rest input) ≤ fuel →
  Parser.fmap (Parser.many (Parser.sat p) 0 0 None) Parser.join_mapper fuel input
  = Parser.Success {| Parser.parsed := VStr (take_while p (Parser.rest input));
                      Parser.rest := drop_while p (Parser.rest input) |}
  ∧ take_while p (Parser.rest input) +:+ drop_while p (Parser.rest input)
    = Parser.rest input.
Proof.
  intros Hfuel. split; [|apply take_drop_while].
  unfold Parser.fmap, Parser.many. rewrite many_sat_loop by done.
  cbn. by rewrite join_chars_of.
Qed.

Lemma many_sat_takes_while_witness :
  let notSpace : Parser.Predicate := fun c => negb (String.eqb c " ") in
  String.length "some text" ≤ 9 ∧
  Parser.parseText
    (Parser.fmap (Parser.many (Parser.sat notSpace) 0 0 None) Parser.join_mapper)
    9 "some text"
  = Parser.Success {| Parser.parsed := VStr "some"; Parser.rest := " text" |}.
Proof.
  intros notSpace. split; [simpl; lia|].
  apply (proj1 (many_sat_takes_while notSpace 9
                  {| Parser.parsed := VUndef; Parser.rest := "some text" |}
                  ltac:(simpl; lia))).
Defined.

(** X10: [Parser.item().many().fmap(cs => cs.join(''))] is
    [Parser.all()]: given fuel for one iteration per character, it
    returns the whole remainder as its value and leaves nothing. *)
Theorem many_item_is_all (fuel : nat) (input : Parser.Just) :
  String.length (Parser.rest input) ≤ fuel →
  Parser.fmap (Parser.many Parser.item 0 0 None) Parser.join_mapper fuel input
  = Parser.all fuel input.
Proof.
  intros Hfuel. unfold Parser.fmap, Parser.many, Parser.all.
  rewrite (many_loop_ext Parser.item (Parser.sat (fun _ => true)))
    by apply item_as_sat.
  rewrite many_sat_loop by done. cbn.
  by rewrite take_while_true, drop_while_true, join_chars_of.
Qed.

Lemma many_item_is_all_witness :
  String.length "abc" ≤ 3 ∧
  Parser.parseText (Parser.fmap (Parser.many Parser.item 0 0 None) Parser.join_mapper) 3 "abc"
  = Parser.Success {| Parser.parsed := VStr "abc"; Parser.rest := "" |}.
Proof.
  split; [simpl; lia|].
  apply (many_item_is_all 3 {| Parser.parsed := VUndef; Parser.rest := "abc" |}).
  simpl. lia.
Defined.

(** ** Establishing termination for whole grammars *)

Lemma char_strictly_consumes (c : string) : strictly_consumes (Parser.char c).
Proof.
  intros fuel i out. unfold Parser.char.
  destruct (Parser.rest i); [done|]. destruct (String.eqb _ _); [|done].
  intros [= <-]. simpl. lia.
Qed.

Lemma char_terminates (c : string) : terminates (Parser.char c).
Proof.
  intros i. exists (Parser.char c 0 i). split; [|by exists 0].
  unfold Parser.char. destruct (Parser.rest i); [done|]. by destruct (String.eqb _ _).
Qed.

(** X11: strict consumption, the precondition under which the loops
    end, is inherited along the combinators: by [fmap] and [save]; by
    [seq] and [pass] when one operand strictly consumes and the other
    only consumes forward; by [or] when both alternatives strictly
    consume; and by [many] with a non-zero [min], because a successful
    [many] then made at least one iteration.  (So
    [Parser.char('2').many(1)] may be repeated by [Parser.repeat].) *)
Theorem strictly_consumes_closure (P Q : Parser.ParseFunction) (f : Parser.Mapper)
    (key : string) (min max : nat) (condition : option Parser.Predicate) :
  strictly_consumes P →
  strictly_consumes (Parser.fmap P f) ∧
  strictly_consumes (Parser.save P key) ∧
  (consumes_forward Q →
     strictly_consumes (Parser.seq P Q) ∧ strictly_consumes (Parser.seq Q P) ∧
     strictly_consumes (Parser.pass P Q) ∧ strictly_consumes (Parser.pass Q P)) ∧
  (strictly_consumes Q → strictly_consumes (Parser.or P Q)) ∧
  (min ≠ 0 → strictly_consumes (Parser.many P min max condition)).
Proof.
  intros HP. split; [|split; [|split; [|split]]].
  - intros fuel input out. unfold Parser.fmap.
    destruct (P fuel input) as [j| | |] eqn:Hj; cbn; try done.
    intros [= <-]. cbn. by apply (HP fuel input).
  - intros fuel input out. unfold Parser.save.
    destruct (P fuel input) as [j| | |] eqn:Hj; cbn; try done.
    intros [= <-]. cbn. by apply (HP fuel input).
  - intros HQ. repeat split; intros fuel input out;
      unfold Parser.seq, Parser.pass.
    + destruct (P fuel input) as [j| | |] eqn:Hj; cbn; try done.
      intros Hout. apply HQ, is_suffix_length in Hout. apply HP in Hj. lia.
    + destruct (Q fuel input) as [j| | |] eqn:Hj; cbn; try done.
      intros Hout. apply HP in Hout. apply HQ, is_suffix_length in Hj. lia.
    + destruct (P fuel input) as [j| | |] eqn:Hj; cbn; try done.
      destruct (Q fuel j) as [j'| | |] eqn:Hj'; cbn; try done.
      intros [= <-]. cbn. apply HQ, is_suffix_length in Hj'. apply HP in Hj. lia.
    + destruct (Q fuel input) as [j| | |] eqn:Hj; cbn; try done.
      destruct (P fuel j) as [j'| | |] eqn:Hj'; cbn; try done.
      intros [= <-]. cbn. apply HP in Hj'. apply HQ, is_suffix_length in Hj. lia.
  - intros HQ fuel input out. unfold Parser.or.
    destruct (P fuel input) as [j| | |] eqn:Hj; try done.
    + intros [= <-]. by apply (HP fuel input).
    + apply HQ.
  - intros Hmin fuel input out Hrun. unfold Parser.many in Hrun.
    apply (many_loop_consumed P min max condition input) in Hrun as (k & Hlen & Hk);
      [|done].
    specialize (Hk Hmin). lia.
Qed.

Lemma strictly_consumes_closure_witness :
  strictly_consumes (Parser.char "2") ∧ 1 ≠ 0 ∧
  strictly_consumes (Parser.many (Parser.char "2") 1 0 None).
Proof.
  split; [apply char_strictly_consumes|]. split; [lia|].
  apply (strictly_consumes_closure (Parser.char "2") Parser.zero (fun v => v) "" 1 0 None
           (char_strictly_consumes "2")).
  lia.
Defined.

(** X12: with a non-zero [max], [many] ends for every parser that
    itself ends, consuming or not: the loop makes at most [max + 1]
    iterations. *)
Theorem many_bounded_terminates (P : Parser.ParseFunction) (min max : nat)
    (condition : option Parser.Predicate) :
  fuel_mono P → terminates P → max ≠ 0 →
  terminates (Parser.many P min max condition).
Proof.
  intros Hmono Hterm Hmax input.
  destruct (many_loop_terminates_bounded P min max condition input (S max)
              Hmono Hterm Hmax (Parser.rest input) [] 0 ltac:(lia)) as [fuel Hrun].
  exists (Parser.many P min max condition fuel input). split; [done|]. by exists fuel.
Qed.

Lemma many_bounded_terminates_witness :
  let N := Parser.result VUndef in
  fuel_mono N ∧ terminates N ∧ 3 ≠ 0 ∧
  ∃ out, returns (Parser.many N 0 3 None)
           {| Parser.parsed := VUndef; Parser.rest := "abc" |} out.
Proof.
  intros N.
  assert (Hmono : fuel_mono N) by (by apply fuel_mono_fuel_free).
  assert (Hterm : terminates N).
  { intros i. exists (N 0 i). split; [done|]. by exists 0. }
  split; [exact Hmono|]. split; [exact Hterm|]. split; [lia|].
  apply (many_bounded_terminates N 0 3 None Hmono Hterm ltac:(lia)).
Defined.

Section typed_facts.

Lemma many_loop_typed P min max condition input :
  typed P → ∀ fuel text elements iterations,
  Parser.many_loop P min max condition input fuel text elements iterations
  ≠ Parser.Illtyped.
Proof.
  intros HP. induction fuel as [|fuel IH]; intros text elements iterations;
    rewrite many_loop_unfold; unfold Parser.many_return.
  - destruct (Parser.goOn _ _ _ _); [done|]. by destruct (_ || _).
  - destruct (Parser.goOn _ _ _ _); [|by destruct (_ || _)].
    destruct (P fuel _) as [result| | |] eqn:Hrun;
      [apply IH|by destruct (_ || _)|done|by apply HP in Hrun].
Qed.

Lemma repeat_loop_typed E fromText condition :
  typed E → ∀ fuel text chars elements,
  Parser.repeat_loop E fromText condition fuel text chars elements ≠ Parser.Illtyped.
Proof.
  intros HE.
  assert (Hreturn : ∀ text chars elements,
            Parser.repeat_return fromText text chars elements ≠ Parser.Illtyped).
  { intros text chars elements. unfold Parser.repeat_return.
    by destruct (Parser.makeText _ _ _). }
  induction fuel as [|fuel IH]; intros text chars elements;
    rewrite repeat_loop_unfold; destruct text as [|c tail]; try apply Hreturn.
  - by destruct (condition _).
  - destruct (condition _); [|apply Hreturn].
    destruct (E fuel _) as [result| | |] eqn:Hrun;
      [apply IH|apply IH|done|by apply HE in Hrun].
Qed.

(** A parser that merges nothing and re-parses nothing never leaves
    the typed fragment. *)
Lemma Textual_typed P : Textual P → typed P.
Proof.
  induction 1 as [v| | |c|condition|template|condition| | |l r
                 |E fromText condition HE IHE
                 |P key HP IHP
                 |P Q HP IHP HQ IHQ|P Q HP IHP HQ IHQ|P Q HP IHP HQ IHQ
                 |P min max condition HP IHP|P mapper HP IHP|P v HP IHP];
    intros fuel input.
  - done.
  - done.
  - unfold Parser.item. by destruct (Parser.rest input).
  - unfold Parser.char. destruct (Parser.rest input); [done|]. by destruct (String.eqb _ _).
  - unfold Parser.sat. destruct (Parser.rest input); [done|]. by destruct (condition _).
  - unfold Parser.string. by destruct (_ && _).
  - unfold Parser.peek. by destruct (condition _).
  - done.
  - unfold Parser.end_. by destruct (truthy _).
  - cbn [snd Parser.brackets]. unfold Parser.brackets_internal.
    destruct (Parser.rest input); [done|]. destruct (String.eqb _ _); [|done].
    destruct (Parser.brackets_loop _ _ _ _ _ _) as [index balance].
    by destruct (balance =? 0).
  - by apply repeat_loop_typed.
  - unfold Parser.save. specialize (IHP fuel input). by destruct (P fuel input).
  - unfold Parser.seq. specialize (IHP fuel input).
    destruct (P fuel input) as [lres| | |]; cbn; [apply IHQ|done..].
  - unfold Parser.pass. specialize (IHP fuel input).
    destruct (P fuel input) as [lres| | |]; cbn; [|done..].
    specialize (IHQ fuel lres). by destruct (Q fuel lres).
  - unfold Parser.or. specialize (IHP fuel input).
    destruct (P fuel input) as [lres| | |]; [done|apply IHQ|done..].
  - by apply many_loop_typed.
  - unfold Parser.fmap. specialize (IHP fuel input). by destruct (P fuel input).
  - unfold Parser.default. specialize (IHP fuel input). by destruct (P fuel input).
Qed.
End typed_facts.

(** X13: a grammar of guarded loops that merges nothing and re-parses
    nothing returns on every input.  If the parser is built without
    [bind], [bindInversed] and [seqInversed], and every unbounded
    [many] and every [Parser.repeat] in it repeats a strictly
    consuming parser (a [many] with a non-zero [max] may repeat
    anything), then on every input some amount of fuel is enough for
    the run to end, and it ends with a result or with a failure. *)
Theorem Productive_terminates (P : Parser.ParseFunction) (input : Parser.Just) :
  Productive P → Textual P →
  ∃ fuel, (∃ out, P fuel input = Parser.Success out) ∨ P fuel input = Parser.Failure.
Proof.
  intros HP Htext.
  destruct (settles_terminates P (Productive_settles P HP) input)
    as (out & Hout & fuel & Hrun).
  exists fuel. pose proof (Textual_typed P Htext fuel input) as Htyped.
  rewrite Hrun in *.
  destruct out as [j| | |]; [left; by exists j|by right|done|done].
Qed.

Lemma Productive_terminates_witness :
  let twos := Parser.fmap (Parser.many (Parser.char "2") 1 0 None) (fun _ => VStr "twos") in
  let P := Parser.repeat twos VStr (fun text => negb (startsWith text "hoho")) in
  let input := {| Parser.parsed := VUndef; Parser.rest := "222olala552233hoho!" |} in
  Productive P ∧ Textual P ∧
  ∃ fuel, (∃ out, P fuel input = Parser.Success out) ∨ P fuel input = Parser.Failure.
Proof.
  intros twos P input.
  assert (Hmany : strictly_consumes (Parser.many (Parser.char "2") 1 0 None)).
  { intros fuel i out Hrun. unfold Parser.many in Hrun.
    apply (many_loop_consumed (Parser.char "2") 1 0 None i) in Hrun
      as (k & Hlen & Hk); [|apply char_strictly_consumes].
    specialize (Hk ltac:(lia)). lia. }
  assert (Htwos : strictly_consumes twos).
  { intros fuel i out. unfold twos, Parser.fmap.
    destruct (Parser.many _ _ _ _ fuel i) as [j| | |] eqn:Hj; cbn; try done.
    intros [= <-]. cbn. by apply (Hmany fuel i). }
  assert (HP : Productive P).
  { apply Productive_repeat; [|exact Htwos].
    apply Productive_fmap, Productive_many_consuming;
      [apply Productive_char|apply char_strictly_consumes]. }
  assert (Htext : Textual P).
  { apply Textual_repeat, Textual_fmap, Textual_many, Textual_char. }
  split; [exact HP|]. split; [exact Htext|].
  apply (Productive_terminates P input HP Htext).
Defined.

(** ** What a successful [quoted] or [brackets] says about the input *)

Section delimiter_soundness.

Lemma string_success template fuel input out :
  Parser.string template fuel input = Parser.Success out →
  Parser.parsed out = VStr template ∧ Parser.rest input = template +:+ Parser.rest out.
Proof.
  unfold Parser.string. destruct (truthy _); [|done]. cbn [andb].
  destruct (startsWith _ _) eqn:Hstart; [|done]. intros [= <-]. cbn.
  apply startsWith_spec in Hstart as [r ->]. by rewrite slice_from_length_append.
Qed.

Lemma many_item_gated_sound (gate : Parser.Predicate) input fuel text elements iterations out :
  Parser.many_loop Parser.item 0 0 (Some gate) input fuel text elements iterations
    = Parser.Success out →
  ∃ consumed,
    text = consumed +:+ Parser.rest out ∧
    Parser.parsed out = VArr (elements ++ chars_of consumed) ∧
    ∀ i, i < String.length consumed → gate (slice_from i text) = true.
Proof.
  revert text elements iterations.
  induction fuel as [|fuel IH]; intros text elements iterations;
    rewrite many_loop_unfold;
    destruct (Parser.goOn 0 (Some gate) text iterations) eqn:Hgo; try done;
    try (intros [= <-]; exists ""; cbn; rewrite app_nil_r;
         repeat split; intros; lia).
  destruct text as [|c tail]; [done|]. cbn [Parser.item Parser.rest Parser.parsed].
  intros (consumed & Htail & Hparsed & Hgate)%IH.
  exists (String c consumed). rewrite append_cons, <- Htail. split; [done|].
  split; [by rewrite Hparsed, <- app_assoc|].
  intros [|i] Hi.
  - unfold Parser.goOn in Hgo. cbn [truthy andb] in Hgo.
    by apply andb_true_iff in Hgo as [Hgo _].
  - rewrite slice_from_succ. apply Hgate. simpl in Hi. lia.
Qed.

Lemma many_item_gated_complete (gate : Parser.Predicate) input t tail :
  (∀ i, i < String.length t → gate (slice_from i (t +:+ tail)) = true) →
  (tail = "" ∨ gate tail = false) →
  ∀ fuel elements iterations,
    String.length t ≤ fuel →
    Parser.many_loop Parser.item 0 0 (Some gate) input fuel (t +:+ tail) elements iterations
    = Parser.Success {| Parser.parsed := VArr (elements ++ chars_of t);
                        Parser.rest := tail |}.
Proof.
  intros Hgate Hstop. revert Hgate.
  induction t as [|c t IH]; intros Hgate fuel elements iterations Hfuel;
    rewrite many_loop_unfold.
  - rewrite append_empty_l, app_nil_r.
    assert (Hgo : Parser.goOn 0 (Some gate) tail iterations = false).
    { unfold Parser.goOn. destruct Hstop as [Hstop|Hstop]; rewrite Hstop; [done|].
      by rewrite andb_false_r. }
    by rewrite Hgo.
  - pose proof (Hgate 0 ltac:(simpl; lia)) as Hgate0. rewrite slice_from_0 in Hgate0.
    unfold Parser.goOn. rewrite Hgate0, append_cons.
    cbn [truthy andb Parser.overflow negb].
    simpl in Hfuel. destruct fuel as [|fuel]; [lia|].
    cbn [Parser.item Parser.rest Parser.parsed]. rewrite IH.
    + cbn [chars_of]. by rewrite <- app_assoc.
    + intros i Hi. apply (Hgate (S i)). simpl. lia.
    + lia.
Qed.

Lemma get_slice_from n s c :
  String.get n s = Some c → slice_from n s = String c (slice_from (S n) s).
Proof.
  revert s. induction n as [|n IH]; intros [|c' s]; try done.
  - cbn. by intros [= ->].
  - cbn [String.get]. intros Hget%IH. rewrite slice_from_succ. by rewrite Hget.
Qed.

Lemma substring_slice_from n s :
  String.substring 0 n s +:+ slice_from n s = s.
Proof.
  revert s. induction n as [|n IH]; intros [|c s]; simpl; try done.
  by rewrite append_cons, IH.
Qed.

Lemma get_Some_lt n s c : String.get n s = Some c → n < String.length s.
Proof.
  revert s. induction n as [|n IH]; intros [|c' s]; simpl; try done; [lia|].
  intros H%IH. lia.
Qed.

Lemma brackets_loop_closed left right text gas index balance index' :
  Parser.brackets_loop left right text gas index balance = (index', 0) →
  balance ≠ 0 →
  index < index' ∧
  ∃ c, String.get (index' - 1) text = Some c ∧ unit_string c = right.
Proof.
  revert index balance.
  induction gas as [|gas IH]; intros index balance;
    rewrite brackets_loop_unfold;
    destruct (Nat.eqb_spec balance 0) as [|Hb]; try done; cbn [negb andb];
    destruct (Nat.ltb_spec index (String.length text)) as [Hlt|];
    try (intros [= _ ->]; done).
  intros Hloop _.
  destruct (String.get index text) as [char|] eqn:Hget.
  2:{ apply IH in Hloop as [? ?]; [|done]. split; [lia|done]. }
  destruct (String.eqb (unit_string char) left) eqn:Hleft.
  { apply IH in Hloop as [? ?]; [|done]. split; [lia|done]. }
  destruct (String.eqb_spec (unit_string char) right) as [Hright|].
  2:{ apply IH in Hloop as [? ?]; [|done]. split; [lia|done]. }
  destruct balance as [|[|balance]]; [done| |].
  - cbn [Nat.pred] in Hloop. rewrite brackets_loop_unfold in Hloop.
    cbn [Nat.eqb negb andb] in Hloop. injection Hloop as <-.
    split; [lia|]. exists char. split; [|done].
    by replace (S index - 1) with index by lia.
  - cbn [Nat.pred] in Hloop. apply IH in Hloop as [? ?]; [|done]. split; [lia|done].
Qed.
End delimiter_soundness.

(** X14: whenever [quoted(q)] succeeds, the input is [q], the value,
    [q] again and the remainder, in this order, and the closing
    delimiter is the first one: [q] occurs at no earlier position of
    what follows the opening delimiter. *)
Theorem quoted_sound (q : string) (fuel : nat) (input out : Parser.Just) :
  Parser.quoted q fuel input = Parser.Success out →
  ∃ v, Parser.parsed out = VStr v ∧
       Parser.rest input = q +:+ v +:+ q +:+ Parser.rest out ∧
       ∀ i, i < String.length v → occurs_at q (v +:+ q +:+ Parser.rest out) i = false.
Proof.
  unfold Parser.quoted, Parser.pass, Parser.seq, Parser.fmap, Parser.many.
  destruct (Parser.string q fuel input) as [opened| | |] eqn:Hopen; cbn; try done.
  apply string_success in Hopen as [_ Hinput].
  destruct (Parser.many_loop _ _ _ _ _ _ _ _ _) as [inner| | |] eqn:Hloop; cbn; try done.
  apply many_item_gated_sound in Hloop as (v & Hrest & Hparsed & Hgate).
  destruct (Parser.string q fuel _) as [closed| | |] eqn:Hclose; cbn; try done.
  apply string_success in Hclose as [_ Hclosed]. cbn in Hclosed.
  intros [= <-]. cbn. exists v. rewrite Hparsed. cbn. rewrite join_chars_of.
  split; [done|]. rewrite Hinput, Hrest, Hclosed. split; [done|].
  intros i Hi. specialize (Hgate i Hi). cbn in Hgate.
  rewrite Hrest, Hclosed in Hgate. unfold occurs_at.
  by apply negb_true_iff in Hgate.
Qed.

Lemma quoted_sound_witness :
  Parser.quoted "ox" 30 {| Parser.parsed := VUndef; Parser.rest := "ox gorox!" |}
    = Parser.Success {| Parser.parsed := VStr " gor"; Parser.rest := "!" |} ∧
  ∃ v, VStr " gor" = VStr v ∧ "ox gorox!" = "ox" +:+ v +:+ "ox" +:+ "!".
Proof.
  assert (Hrun : Parser.quoted "ox" 30 {| Parser.parsed := VUndef; Parser.rest := "ox gorox!" |}
                 = Parser.Success {| Parser.parsed := VStr " gor"; Parser.rest := "!" |})
    by reflexivity.
  split; [exact Hrun|].
  destruct (quoted_sound "ox" 30 _ _ Hrun) as (v & Hv & Hdecomp & _).
  exists v. split; [exact Hv|exact Hdecomp].
Defined.

(** X15: an unterminated span fails: when the non-empty delimiter [q]
    occurs nowhere in [t], [quoted(q)] applied to [q + t] scans to the
    end of the input and returns [Failure]; so it does on an input
    that does not start with [q]. *)
Theorem quoted_unterminated (q t : string) (fuel : nat) (input : Parser.Just) :
  (q ≠ "" → (∀ i, i < String.length t → occurs_at q t i = false) →
   String.length t ≤ fuel →
   Parser.parseText (Parser.quoted q) fuel (q +:+ t) = Parser.Failure) ∧
  (startsWith (Parser.rest input) q = false →
   Parser.quoted q fuel input = Parser.Failure).
Proof.
  split.
  - intros Hq Hfree Hfuel.
    unfold Parser.parseText, Parser.quoted, Parser.pass, Parser.seq, Parser.fmap.
    unfold Parser.string at 1. cbn [Parser.rest].
    assert (truthy (q +:+ t) = true) as ->.
    { apply truthy_spec. destruct q; [done|]. by rewrite append_cons. }
    rewrite startsWith_append, slice_from_length_append. cbn [andb Parser.on_success].
    unfold Parser.many. cbn [Parser.rest].
    pose proof (many_item_gated_complete
                  (fun text => negb (startsWith text q))
                  {| Parser.parsed := VStr q; Parser.rest := t |} t "") as Hloop.
    rewrite append_empty_r in Hloop. rewrite Hloop; [done| |by left|done].
    intros i Hi. apply negb_true_iff. by apply Hfree.
  - intros Hstart. unfold Parser.quoted, Parser.pass, Parser.seq, Parser.string at 1.
    by rewrite Hstart, andb_false_r.
Qed.

Lemma quoted_unterminated_witness :
  "ox" ≠ "" ∧ (∀ i, i < String.length "ta" → occurs_at "ox" "ta" i = false) ∧
  String.length "ta" ≤ 2 ∧
  Parser.parseText (Parser.quoted "ox") 2 "oxta" = Parser.Failure.
Proof.
  assert (Hfree : ∀ i, i < String.length "ta" → occurs_at "ox" "ta" i = false).
  { intros i Hi. simpl in Hi. destruct i as [|[|i]]; [reflexivity..|lia]. }
  split; [discriminate|]. split; [exact Hfree|]. split; [simpl; lia|].
  apply (proj1 (quoted_unterminated "ox" "ta" 2 {| Parser.parsed := VUndef; Parser.rest := "" |})
           ltac:(discriminate) Hfree ltac:(simpl; lia)).
Defined.

(** X16: whenever [brackets(left, right)] succeeds, the input is
    [left], the value, [right] and the remainder, in this order; in
    particular both markers are single characters. *)
Theorem brackets_sound (left right : string) (fuel : nat) (input out : Parser.Just) :
  snd (Parser.brackets left right) fuel input = Parser.Success out →
  ∃ v, Parser.parsed out = VStr v ∧
       Parser.rest input = left +:+ v +:+ right +:+ Parser.rest out ∧
       String.length left = 1 ∧ String.length right = 1.
Proof.
  cbn [snd Parser.brackets]. unfold Parser.brackets_internal.
  destruct (Parser.rest input) as [|c0 tail] eqn:Htext; [done|].
  destruct (String.eqb_spec (unit_string c0) left) as [Hleft|]; [|done].
  destruct (Parser.brackets_loop _ _ _ _ _ _) as [index balance] eqn:Hloop.
  destruct (Nat.eqb_spec balance 0) as [->|]; [|done].
  apply brackets_loop_closed in Hloop as (Hindex & c & Hget & Hright); [|done].
  intros [= <-]. cbn [Parser.parsed Parser.rest].
  exists (slice 1 (index - 1) (String c0 tail)). split; [done|].
  destruct index as [|[|m]]; [lia..|].
  replace (S (S m) - 1) with (S m) in * by lia.
  unfold slice. replace (S m - 1) with m by lia.
  cbn [String.substring String.get slice_from] in *.
  rewrite <- Hleft, <- Hright. unfold unit_string.
  rewrite !append_cons, !append_empty_l. split; [|done]. f_equal.
  rewrite <- (substring_slice_from m tail) at 1. f_equal.
  by apply get_slice_from.
Qed.

Lemma brackets_sound_witness :
  snd (Parser.brackets "(" ")") 0 {| Parser.parsed := VUndef; Parser.rest := "(a(b))c" |}
    = Parser.Success {| Parser.parsed := VStr "a(b)"; Parser.rest := "c" |} ∧
  ∃ v, VStr "a(b)" = VStr v ∧ "(a(b))c" = "(" +:+ v +:+ ")" +:+ "c".
Proof.
  assert (Hrun : snd (Parser.brackets "(" ")") 0
                   {| Parser.parsed := VUndef; Parser.rest := "(a(b))c" |}
                 = Parser.Success {| Parser.parsed := VStr "a(b)"; Parser.rest := "c" |})
    by reflexivity.
  split; [exact Hrun|].
  destruct (brackets_sound "(" ")" 0 _ _ Hrun) as (v & Hv & Hdecomp & _).
  exists v. split; [exact Hv|exact Hdecomp].
Defined.

Section brackets_unclosed_facts.
Variables (l r : ascii).
Hypothesis l_neq_r : l ≠ r.

Lemma brackets_loop_unclosed t :
  Unclosed l r t → ∀ text pre gas index balance,
  text = pre +:+ t → index = String.length pre →
  snd (Parser.brackets_loop (unit_string l) (unit_string r) text
         (String.length t + gas) index (S balance)) ≠ 0.
Proof.
  induction 1 as [t Ht|t1 t2 Ht1 Ht2 IH]; intros text pre gas index balance Htext Hindex.
  - rewrite (brackets_loop_balanced l r l_neq_r t Ht text pre "")
      by (by rewrite ?append_empty_r).
    rewrite brackets_loop_unfold.
    replace (index + String.length t <? String.length text) with false; [done|].
    symmetry. apply Nat.ltb_ge. subst. rewrite length_append. lia.
  - rewrite length_append. cbn [String.length].
    replace (String.length t1 + S (String.length t2) + gas)
      with (String.length t1 + S (String.length t2 + gas)) by lia.
    rewrite (brackets_loop_balanced l r l_neq_r t1 Ht1 text pre (String l t2))
      by (by rewrite ?Htext).
    rewrite (brackets_loop_step l r text (pre +:+ t1) l t2)
      by (subst; by rewrite ?append_assoc, ?length_append).
    rewrite bool_decide_eq_true_2 by done.
    apply (IH text (pre +:+ t1 +:+ unit_string l)).
    + subst. unfold unit_string.
      by rewrite !append_assoc, append_cons, append_empty_l.
    + subst. rewrite !length_append. simpl. lia.
Qed.
End brackets_unclosed_facts.

(** X18: [brackets] fails on an input that does not start with the
    left marker.  For distinct bracket characters it also fails on
    [l + t] whenever [t] has no unmatched closing bracket ([t] is made
    of balanced stretches, separated by opening brackets that stay
    open): nothing in [t] closes the leading bracket, and the scan
    reaches the end of the input with a positive nesting counter. *)
Theorem brackets_unclosed (l r : ascii) (t : string) (left right : string)
    (fuel : nat) (input : Parser.Just) :
  (l ≠ r → Unclosed l r t →
   Parser.parseText (snd (Parser.brackets (unit_string l) (unit_string r))) fuel
     (unit_string l +:+ t) = Parser.Failure) ∧
  ((∀ tail, Parser.rest input ≠ left +:+ tail) →
   snd (Parser.brackets left right) fuel input = Parser.Failure).
Proof.
  split.
  - intros Hlr Ht. unfold Parser.parseText. cbn [snd Parser.brackets].
    unfold Parser.brackets_internal. cbn [Parser.rest].
    change (unit_string l +:+ t) with (String l t). cbv beta iota.
    rewrite String.eqb_refl.
    pose proof (brackets_loop_unclosed l r Hlr t Ht (String l t) (unit_string l)
                  1 1 0 eq_refl eq_refl) as Hopen.
    cbn [String.length]. replace (S (String.length t)) with (String.length t + 1) by lia.
    destruct (Parser.brackets_loop _ _ _ _ _ _) as [index balance].
    cbn [snd] in Hopen. by destruct (Nat.eqb_spec balance 0).
  - intros Hstart. cbn [snd Parser.brackets]. unfold Parser.brackets_internal.
    destruct (Parser.rest input) as [|c tail] eqn:Htext; [done|].
    destruct (String.eqb_spec (unit_string c) left) as [<-|]; [|done].
    by destruct (Hstart tail).
Qed.

Lemma brackets_unclosed_witness :
  "("%char ≠ ")"%char ∧ Unclosed "(" ")" "unmatched (brackets)" ∧
  Parser.parseText (snd (Parser.brackets "(" ")")) 0 "(unmatched (brackets)"
    = Parser.Failure.
Proof.
  assert (Hopen : Unclosed "(" ")" "unmatched (brackets)").
  { apply Unclosed_balanced.
    do 10 (apply Balanced_other; [discriminate|discriminate|]).
    apply (Balanced_nest "(" ")" "brackets" "").
    - do 8 (apply Balanced_other; [discriminate|discriminate|]). apply Balanced_empty.
    - apply Balanced_empty. }
  split; [discriminate|]. split; [exact Hopen|].
  apply (proj1 (brackets_unclosed "(" ")" "unmatched (brackets)" "" "" 0
                  {| Parser.parsed := VUndef; Parser.rest := "" |})
           ltac:(discriminate) Hopen).
Defined.

(** ** More on the interleave scanner and on [many] *)

Section repeat_more_facts.
Variables (E : Parser.ParseFunction) (f : string → value) (cond : Parser.Predicate).

Lemma repeat_loop_text_only text :
  (∀ fuel s, is_suffix s text → s ≠ "" →
     E fuel {| Parser.parsed := VObj ∅; Parser.rest := s |} = Parser.Failure) →
  (∀ s, is_suffix s text → s ≠ "" → cond s = true) →
  ∀ s pending fuel,
    is_suffix s text → String.length s ≤ fuel → pending +:+ s ≠ "" →
    Parser.repeat_loop E f cond fuel s (units pending) []
    = Parser.Success {| Parser.parsed := VArr [f (pending +:+ s)]; Parser.rest := "" |}.
Proof.
  intros HE Hcond s. induction s as [|c s IH]; intros pending fuel Hsuffix Hfuel Hne;
    rewrite repeat_loop_unfold.
  - rewrite repeat_return_units. rewrite append_empty_r in *.
    unfold flush. by destruct pending.
  - rewrite Hcond by done. simpl in Hfuel. destruct fuel as [|fuel]; [lia|].
    rewrite HE by done. rewrite <- units_snoc.
    rewrite IH.
    + unfold unit_string. by rewrite append_assoc, append_cons, append_empty_l.
    + eapply is_suffix_trans; [apply is_suffix_tail|exact Hsuffix].
    + lia.
    + destruct pending; [done|]. by rewrite !append_cons.
Qed.

Lemma repeat_loop_stops fuel text chars elements out :
  Parser.repeat_loop E f cond fuel text chars elements = Parser.Success out →
  (Parser.rest out = "" ∨ cond (Parser.rest out) = false) ∧
  ∃ entries, entries ≠ [] ∧ Parser.parsed out = VArr entries.
Proof.
  assert (Hreturn : ∀ text chars elements,
            text = "" ∨ cond text = false →
            Parser.repeat_return f text chars elements = Parser.Success out →
            (Parser.rest out = "" ∨ cond (Parser.rest out) = false) ∧
            ∃ entries, entries ≠ [] ∧ Parser.parsed out = VArr entries).
  { intros text' chars' elements' Hstop. unfold Parser.repeat_return.
    destruct (Parser.makeText _ _ _) as [|v entries]; [done|].
    intros [= <-]. split; [done|]. by exists (v :: entries). }
  revert text chars elements.
  induction fuel as [|fuel IH]; intros text chars elements;
    rewrite repeat_loop_unfold; destruct text as [|c tail];
    try (apply Hreturn; by left);
    destruct (cond (String c tail)) eqn:Hcond; try done;
    try (apply Hreturn; by right).
  destruct (E fuel _) as [result| | |]; try done; apply IH.
Qed.
End repeat_more_facts.

(** X19: text without any element is not a failure: when the element
    parser fails at every position of a non-empty text and the
    condition holds throughout, [Parser.repeat] succeeds with the one
    entry [fromText(text)] and consumes the whole text. *)
Theorem repeat_text_only (E : Parser.ParseFunction) (f : string → value)
    (cond : Parser.Predicate) (text : string) (pv : value) (fuel : nat) :
  text ≠ "" →
  (∀ fl s, is_suffix s text → s ≠ "" →
     E fl {| Parser.parsed := VObj ∅; Parser.rest := s |} = Parser.Failure) →
  (∀ s, is_suffix s text → s ≠ "" → cond s = true) →
  String.length text ≤ fuel →
  Parser.repeat E f cond fuel {| Parser.parsed := pv; Parser.rest := text |}
  = Parser.Success {| Parser.parsed := VArr [f text]; Parser.rest := "" |}.
Proof.
  intros Hne HE Hcond Hfuel. unfold Parser.repeat. cbn [Parser.rest].
  by apply (repeat_loop_text_only E f cond text HE Hcond text "" fuel);
    [apply is_suffix_refl|..].
Qed.

Lemma repeat_text_only_witness :
  "olala" ≠ "" ∧ String.length "olala" ≤ 5 ∧
  Parser.repeat Parser.zero VStr (fun _ => true) 5
    {| Parser.parsed := VUndef; Parser.rest := "olala" |}
  = Parser.Success {| Parser.parsed := VArr [VStr "olala"]; Parser.rest := "" |}.
Proof.
  split; [discriminate|]. split; [simpl; lia|].
  apply (repeat_text_only Parser.zero VStr (fun _ => true) "olala" VUndef 5);
    [discriminate|reflexivity|reflexivity|simpl; lia].
Defined.

(** X20: a successful [Parser.repeat] stopped for one of its two
    reasons and never returns an empty array: its remainder is empty
    or fails the condition, and its value is a non-empty array. *)
Theorem repeat_stops_at_condition (E : Parser.ParseFunction) (f : string → value)
    (cond : Parser.Predicate) (fuel : nat) (input out : Parser.Just) :
  Parser.repeat E f cond fuel input = Parser.Success out →
  (Parser.rest out = "" ∨ cond (Parser.rest out) = false) ∧
  ∃ entries, entries ≠ [] ∧ Parser.parsed out = VArr entries.
Proof. apply repeat_loop_stops. Qed.

Lemma repeat_stops_at_condition_witness :
  let cond : Parser.Predicate := fun text => negb (startsWith text "!") in
  Parser.repeat (Parser.char "2") VStr cond 5
    {| Parser.parsed := VUndef; Parser.rest := "a2b!" |}
  = Parser.Success {| Parser.parsed := VArr [VStr "a"; VStr "2"; VStr "b"];
                      Parser.rest := "!" |} ∧
  ("!" = "" ∨ cond "!" = false).
Proof.
  intros cond.
  assert (Hrun : Parser.repeat (Parser.char "2") VStr cond 5
                   {| Parser.parsed := VUndef; Parser.rest := "a2b!" |}
                 = Parser.Success {| Parser.parsed := VArr [VStr "a"; VStr "2"; VStr "b"];
                                     Parser.rest := "!" |}) by reflexivity.
  split; [exact Hrun|].
  exact (proj1 (repeat_stops_at_condition _ _ _ _ _ _ Hrun)).
Defined.

Lemma many_loop_maximal P min condition input fuel text elements iterations out :
  Parser.many_loop P min 0 condition input fuel text elements iterations
    = Parser.Success out →
  Parser.rest out = "" ∨
  (∃ c, condition = Some c ∧ c (Parser.rest out) = false) ∨
  ∃ fl, P fl {| Parser.parsed := Parser.parsed input; Parser.rest := Parser.rest out |}
        = Parser.Failure.
Proof.
  revert text elements iterations.
  induction fuel as [|fuel IH]; intros text elements iterations;
    rewrite many_loop_unfold;
    destruct (Parser.goOn 0 condition text iterations) eqn:Hgo; try done.
  - intros [-> _]%many_return_success. cbn.
    unfold Parser.goOn in Hgo. destruct condition as [c|].
    + destruct text; [by left|]. right; left. exists c. split; [done|].
      cbn in Hgo. by rewrite andb_true_r in Hgo.
    + left. by destruct text.
  - destruct (P fuel _) as [result| | |] eqn:Hresult; try done; [apply IH|].
    intros [-> _]%many_return_success. cbn. right; right. by exists fuel.
  - intros [-> _]%many_return_success. cbn.
    unfold Parser.goOn in Hgo. destruct condition as [c|].
    + destruct text; [by left|]. right; left. exists c. split; [done|].
      cbn in Hgo. by rewrite andb_true_r in Hgo.
    + left. by destruct text.
Qed.

(** X21: [many] without an upper bound is greedy: when it succeeds,
    nothing more could have been taken, because the remainder is
    empty, or fails the condition, or makes the repeated parser
    fail. *)
Theorem many_is_greedy (P : Parser.ParseFunction) (min : nat)
    (condition : option Parser.Predicate) (fuel : nat) (input out : Parser.Just) :
  Parser.many P min 0 condition fuel input = Parser.Success out →
  Parser.rest out = "" ∨
  (∃ c, condition = Some c ∧ c (Parser.rest out) = false) ∨
  ∃ fl, P fl {| Parser.parsed := Parser.parsed input; Parser.rest := Parser.rest out |}
        = Parser.Failure.
Proof. apply many_loop_maximal. Qed.

Lemma many_is_greedy_witness :
  Parser.many (Parser.char "2") 1 0 None 5 {| Parser.parsed := VUndef; Parser.rest := "22x" |}
  = Parser.Success {| Parser.parsed := VArr [VStr "2"; VStr "2"]; Parser.rest := "x" |} ∧
  ("x" = "" ∨ (∃ c, None = Some c ∧ c "x" = false) ∨
   ∃ fl, Parser.char "2" fl {| Parser.parsed := VUndef; Parser.rest := "x" |}
         = Parser.Failure).
Proof.
  assert (Hrun : Parser.many (Parser.char "2") 1 0 None 5
                   {| Parser.parsed := VUndef; Parser.rest := "22x" |}
                 = Parser.Success {| Parser.parsed := VArr [VStr "2"; VStr "2"];
                                     Parser.rest := "x" |}) by reflexivity.
  split; [exact Hrun|].
  exact (many_is_greedy _ _ _ _ _ _ Hrun).
Defined.

(** ** Records built with [save], [bind] and the inversed combinators *)

(** X22: two results saved under different keys and merged by [bind]
    can both be read back.  [P.save(k1).bind(Q.save(k2))] runs [Q] on
    the state [P.save(k1)] returned, whose value is the new record
    [{k1: v1}]; when that run of [Q] leaves the record as it is (it
    merges nothing into it), [bind] returns this record, now with
    exactly the keys [k1] and [k2], carrying the value of [P] and the
    value of [Q], together with [Q]'s remainder.  The keys are
    ordinary property names, not ["__proto__"]. *)
Theorem save_bind_record (P Q : Store.ParseFunction) (k1 k2 : string) (fuel : nat)
    (σ σ1 σ2 : Store.store) (input : Store.Just) (v1 v2 : Store.value) (r1 r2 : string) :
  k1 ≠ k2 → k1 ≠ "__proto__" → k2 ≠ "__proto__" →
  P fuel σ input = Store.Success {| Store.parsed := v1; Store.rest := r1 |} σ1 →
  Q fuel (σ1 ++ [{[ k1 := v1 ]}])
      {| Store.parsed := Store.SRef (length σ1); Store.rest := r1 |}
    = Store.Success {| Store.parsed := v2; Store.rest := r2 |} σ2 →
  σ2 !! length σ1 = Some {[ k1 := v1 ]} →
  ∃ record σ3,
    Store.bind (Store.save P k1) (Store.save Q k2) fuel σ input
      = Store.Success {| Store.parsed := Store.SRef (length σ1); Store.rest := r2 |} σ3 ∧
    σ3 !! length σ1 = Some record ∧
    record !! k1 = Some v1 ∧ record !! k2 = Some v2 ∧
    dom record = {[ k1; k2 ]}.
Proof.
  intros Hne Hk1 Hk2 HP HQ Hkept.
  assert (Hlt : length σ1 < length σ2) by (by apply lookup_lt_Some in Hkept).
  set (Pk := Store.save P k1). set (Qk := Store.save Q k2).
  assert (HPk : Pk fuel σ input
                = Store.Success {| Store.parsed := Store.SRef (length σ1); Store.rest := r1 |}
                                (σ1 ++ [{[ k1 := v1 ]}])).
  { unfold Pk, Store.save, Store.own_entry. rewrite HP. cbn.
    by destruct (String.eqb_spec k1 "__proto__"). }
  assert (HQk : Qk fuel (σ1 ++ [{[ k1 := v1 ]}])
                  {| Store.parsed := Store.SRef (length σ1); Store.rest := r1 |}
                = Store.Success {| Store.parsed := Store.SRef (length σ2); Store.rest := r2 |}
                                (σ2 ++ [{[ k2 := v2 ]}])).
  { unfold Qk, Store.save, Store.own_entry. rewrite HQ. cbn.
    by destruct (String.eqb_spec k2 "__proto__"). }
  exists ({[ k2 := v2 ]} ∪ {[ k1 := v1 ]}),
         (<[length σ1 := {[ k2 := v2 ]} ∪ {[ k1 := v1 ]}]> (σ2 ++ [{[ k2 := v2 ]}])).
  split; [|split; [|split; [|split]]].
  - apply (store_bind_success Pk Qk fuel σ input _ _ _ _ (length σ1) (length σ2)
             {[ k1 := v1 ]} {[ k2 := v2 ]} HPk HQk eq_refl eq_refl).
    + by apply lookup_app_l_Some.
    + by apply list_lookup_middle.
    + by apply lookup_singleton_ne.
  - apply list_lookup_insert_eq. rewrite length_app. lia.
  - rewrite store_union_lookup, lookup_singleton_ne by done.
    by rewrite lookup_singleton_eq.
  - by rewrite store_union_lookup, lookup_singleton_eq.
  - by rewrite store_union_dom, !dom_singleton_L.
Qed.

Lemma save_bind_record_witness :
  let P := Store.string "Alice" in
  let Q := Store.string "Bob" in
  "first" ≠ "second" ∧
  ∃ record σ3,
    Store.parseText (Store.bind (Store.save P "first") (Store.save Q "second"))
      0 [] "AliceBobPete"
      = Store.Success {| Store.parsed := Store.SRef 0; Store.rest := "Pete" |} σ3 ∧
    σ3 !! 0 = Some record ∧
    record !! "first" = Some (Store.SStr "Alice") ∧
    record !! "second" = Some (Store.SStr "Bob").
Proof.
  intros P Q. split; [discriminate|].
  destruct (save_bind_record P Q "first" "second" 0 [] []
              [{[ "first" := Store.SStr "Alice" ]}]
              {| Store.parsed := Store.SUndef; Store.rest := "AliceBobPete" |}
              (Store.SStr "Alice") (Store.SStr "Bob") "BobPete" "Pete"
              ltac:(discriminate) ltac:(discriminate) ltac:(discriminate)
              eq_refl eq_refl eq_refl) as (record & σ3 & Hrun & Hrec & H1 & H2 & _).
  by exists record, σ3.
Defined.



(** ** The value of [brackets] is balanced *)

Section brackets_value_facts.
Variables (l r : ascii).
Hypothesis l_neq_r : l ≠ r.

Lemma Closes_open n w : Closes l r (S (S n)) w → Closes l r (S n) (String l w).
Proof.
  intros Hw. inversion Hw as [|? t w1 Ht Hw1]; subst.
  inversion Hw1 as [|? t' w2 Ht' Hw2]; subst.
  replace (String l (t +:+ String r (t' +:+ String r w2)))
    with (String l (t +:+ String r t') +:+ String r w2)
    by (by rewrite append_cons, append_assoc, append_cons).
  apply Closes_S; [by apply Balanced_nest|done].
Qed.

Lemma Closes_other n c w :
  c ≠ l → c ≠ r → Closes l r (S n) w → Closes l r (S n) (String c w).
Proof.
  intros Hl Hr Hw. inversion Hw as [|? t w1 Ht Hw1]; subst.
  rewrite <- append_cons. apply Closes_S; [by apply Balanced_other|done].
Qed.

Lemma Closes_close n w : Closes l r n w → Closes l r (S n) (String r w).
Proof. intros Hw. apply (Closes_S l r n "" w); [apply Balanced_empty|done]. Qed.

Lemma substring_step n m s c :
  String.get n s = Some c → n < m →
  String.substring n (m - n) s = String c (String.substring (S n) (m - S n) s).
Proof.
  revert s m. induction n as [|n IH]; intros [|c' s] m Hget Hlt; try done.
  - cbn in Hget. injection Hget as ->.
    destruct m as [|m]; [lia|]. cbn. by rewrite Nat.sub_0_r.
  - cbn [String.get] in Hget. destruct m as [|m]; [lia|].
    cbn [String.substring Nat.sub]. apply IH; [done|lia].
Qed.

Lemma substring_zero n s : String.substring n 0 s = "".
Proof. revert s. induction n as [|n IH]; intros [|c s]; cbn; auto. Qed.

Lemma substring_snoc m s c :
  String.get m s = Some c →
  String.substring 0 (S m) s = String.substring 0 m s +:+ unit_string c.
Proof.
  revert s. induction m as [|m IH]; intros [|c' s] Hget; try done.
  - cbn in Hget. injection Hget as ->. cbn. by destruct s.
  - cbn [String.get] in Hget. cbn [String.substring].
    rewrite (IH s Hget). by rewrite append_cons.
Qed.

Lemma append_unit_inj s t c : s +:+ unit_string c = t +:+ unit_string c → s = t.
Proof.
  revert t. induction s as [|a s IH]; intros [|b t]; rewrite ?append_cons; try done.
  - unfold unit_string. rewrite append_empty_l. intros [= _ H]. by destruct t.
  - unfold unit_string. rewrite append_empty_l. intros [= _ H]. by destruct s.
  - intros [= -> H]. f_equal. by apply IH.
Qed.

Lemma brackets_loop_scans_closed text gas index n index' :
  Parser.brackets_loop (unit_string l) (unit_string r) text gas index (S n) = (index', 0) →
  Closes l r (S n) (String.substring index (index' - index) text).
Proof.
  revert index n. induction gas as [|gas IH]; intros index n Hloop.
  { rewrite brackets_loop_unfold in Hloop. cbn [Nat.eqb negb andb] in Hloop.
    by destruct (index <? String.length text). }
  pose proof (brackets_loop_closed _ _ _ _ _ _ _ Hloop ltac:(done)) as [Hlt _].
  rewrite brackets_loop_unfold in Hloop. cbn [Nat.eqb negb andb] in Hloop.
  destruct (Nat.ltb_spec index (String.length text)) as [Hlen|]; [|done].
  destruct (String.get index text) as [char|] eqn:Hget.
  2:{ exfalso. clear -Hget Hlen. revert text Hget Hlen.
      induction index as [|i IHi]; intros [|c s]; cbn; try done; try lia.
      intros Hget Hlen. apply (IHi s Hget). lia. }
  rewrite (substring_step index index' text char Hget Hlt).
  rewrite !unit_string_eqb in Hloop.
  case_bool_decide as Hl; [subst char|].
  - apply Closes_open. by apply IH.
  - case_bool_decide as Hr; [subst char|].
    + cbn [Nat.pred] in Hloop. destruct n as [|n].
      * rewrite brackets_loop_unfold in Hloop. cbn [Nat.eqb negb andb] in Hloop.
        injection Hloop as <-. rewrite Nat.sub_diag, substring_zero.
        apply (Closes_close 0 ""). constructor.
      * apply Closes_close. by apply IH.
    + apply Closes_other; [done..|]. by apply IH.
Qed.
End brackets_value_facts.

(** X17: the value [brackets(l, r)] returns is balanced: whenever it
    succeeds on an input, that input is [l], a text [v] without an
    unmatched [l] or [r], the closing [r] and the remainder, and [v]
    is the value.  Together with the round trip this makes the
    balanced texts exactly the values of [brackets]. *)
Theorem brackets_value_balanced (l r : ascii) (fuel : nat) (input out : Parser.Just) :
  l ≠ r →
  snd (Parser.brackets (unit_string l) (unit_string r)) fuel input = Parser.Success out →
  ∃ v, Parser.parsed out = VStr v ∧ Balanced l r v ∧
       Parser.rest input = unit_string l +:+ v +:+ unit_string r +:+ Parser.rest out.
Proof.
  intros Hlr. cbn [snd Parser.brackets]. unfold Parser.brackets_internal.
  destruct (Parser.rest input) as [|c0 tail] eqn:Htext; [done|].
  destruct (String.eqb_spec (unit_string c0) (unit_string l)) as [Hleft|]; [|done].
  destruct (Parser.brackets_loop _ _ _ _ _ _) as [index balance] eqn:Hloop.
  destruct (Nat.eqb_spec balance 0) as [->|]; [|done].
  pose proof (brackets_loop_scans_closed l r _ _ _ _ _ Hloop) as Hclosed.
  apply brackets_loop_closed in Hloop as (Hindex & c & Hget & Hright); [|done].
  injection Hright as ->.
  intros [= <-]. cbn [Parser.parsed Parser.rest].
  destruct index as [|[|m]]; [lia..|].
  replace (S (S m) - 1) with (S m) in * by lia.
  unfold slice. replace (S m - 1) with m by lia.
  cbn [String.substring String.get slice_from] in *.
  rewrite (substring_snoc m tail r Hget) in Hclosed.
  inversion Hclosed as [|n t w Ht Hw Hn Heq].
  inversion Hw as [Hempty|]. subst w.
  change (String r "") with (unit_string r) in Heq.
  apply append_unit_inj in Heq. rewrite Heq in Ht.
  exists (String.substring 0 m tail). split; [done|]. split; [done|].
  injection Hleft as ->. unfold unit_string.
  rewrite !append_cons, !append_empty_l. f_equal.
  rewrite <- (substring_slice_from m tail) at 1. f_equal.
  by apply get_slice_from.
Qed.

Lemma brackets_value_balanced_witness :
  "("%char ≠ ")"%char ∧
  snd (Parser.brackets "(" ")") 0 {| Parser.parsed := VUndef; Parser.rest := "(a(b))c" |}
    = Parser.Success {| Parser.parsed := VStr "a(b)"; Parser.rest := "c" |} ∧
  ∃ v, VStr "a(b)" = VStr v ∧ Balanced "(" ")" v.
Proof.
  assert (Hrun : snd (Parser.brackets "(" ")") 0
                   {| Parser.parsed := VUndef; Parser.rest := "(a(b))c" |}
                 = Parser.Success {| Parser.parsed := VStr "a(b)"; Parser.rest := "c" |})
    by reflexivity.
  split; [discriminate|]. split; [exact Hrun|].
  destruct (brackets_value_balanced "(" ")" 0 _ _ ltac:(discriminate) Hrun)
    as (v & Hv & Hbal & _).
  exists v. split; [exact Hv|exact Hbal].
Defined.
